(** * Rectangle recovery (the CALICO 2b1 solution of [src/data/blog/lambdas.mdx])

    The C++ program of the post reads [n] sample points of a rectangle's
    perimeter and prints the rectangle's area.  This development embeds the
    program as it is written: [T = long double] is modelled by the Standard
    Library's executable IEEE-754 specification ([SpecFloat]) at the x87
    extended format (64-bit significand, [emax = 16384], round to nearest
    even), with NaN, signed zeros and infinities, so that the division by a
    zero slope and the [isnan] guard of [solve] mean what they mean in the
    program.

    [std::array<T, 2>] is a pair; [std::vector] is a list; the point array
    that [solve] reflects in place is threaded through the outer loop;
    [std::cout] is the list of the values written.  [std::sort] is modelled
    by an insertion sort with the same comparison (its behaviour on arrays
    that hold a NaN is undefined in C++; the model is total). *)

From Stdlib Require Import ZArith QArith List Bool Lia.
From Stdlib Require Import Sorting.Permutation Sorting.Sorted.
From Stdlib Require Import Floats.SpecFloat.
Import ListNotations.
Open Scope Z_scope.

(** ** [long double] *)

Module LD.

Definition prec : Z := 64.
Definition emax : Z := 16384.

Definition T : Type := spec_float.

(** Conversion of an integer (or integral [double]) literal. *)
Definition of_Z (z : Z) : T := binary_normalize prec emax z 0 false.

Definition add : T -> T -> T := SFadd prec emax.
Definition sub : T -> T -> T := SFsub prec emax.
Definition mul : T -> T -> T := SFmul prec emax.
Definition div : T -> T -> T := SFdiv prec emax.
Definition ltb : T -> T -> bool := SFltb.
Definition leb : T -> T -> bool := SFleb.

(** [std::abs], [std::isnan]. *)
Definition abs : T -> T := SFabs.
Definition isnan (x : T) : bool :=
  match x with S754_nan => true | _ => false end.

(** [std::min(a, b)] is [(b < a) ? b : a]; [std::max(a, b)] is
    [(a < b) ? b : a]. *)
Definition min (a b : T) : T := if ltb b a then b else a.
Definition max (a b : T) : T := if ltb a b then b else a.

(** A value the type can hold: a canonical significand and an exponent in
    range. *)
Definition valid (x : T) : bool := valid_binary prec emax x.

(** Neither NaN nor an infinity. *)
Definition finite (x : T) : bool :=
  match x with
  | S754_zero _ | S754_finite _ _ _ => true
  | _ => false
  end.

Definition is_inf (x : T) : bool :=
  match x with S754_infinity _ => true | _ => false end.

Definition is_zero (x : T) : bool :=
  match x with S754_zero _ => true | _ => false end.

End LD.

Import LD.

(** The arithmetic is never unfolded by [simpl]: proofs go through the
    lemmas about it. *)
Arguments add : simpl never.
Arguments sub : simpl never.
Arguments mul : simpl never.
Arguments div : simpl never.
Arguments ltb : simpl never.
Arguments leb : simpl never.
Arguments abs : simpl never.
Arguments of_Z : simpl never.

(** ** [inline namespace Geo] *)

Definition pt : Type := (T * T)%type.
Definition vec : Type := (T * T)%type.
Definition line : Type := (T * T)%type.

Definition zero : T := of_Z 0.
Definition two : T := of_Z 2.
Definition minus_one : T := of_Z (-1).
Definition big : T := of_Z 1000000000.
Definition minus_big : T := of_Z (-1000000000).

Definition cross (a b : vec) : T :=
  sub (mul (fst a) (snd b)) (mul (snd a) (fst b)).

(** [operator-] on points. *)
Definition vsub (a b : pt) : vec :=
  (sub (fst a) (fst b), sub (snd a) (snd b)).

Definition eval (a : line) (x : T) : T :=
  add (mul (fst a) x) (snd a).

Definition intersect (a b : line) : pt :=
  let '(m1, b1) := a in
  let '(m2, b2) := b in
  let x := div (sub b2 b1) (sub m1 m2) in
  (x, eval a x).

(** [make_line(loc, slope)]. *)
Definition make_line (loc : pt) (slope : T) : line :=
  (slope, sub (snd loc) (mul slope (fst loc))).

(** [make_line(a, b)], the overload through two points. *)
Definition make_line_pts (a b : pt) : line :=
  let slope := div (sub (snd b) (snd a)) (sub (fst b) (fst a)) in
  make_line a slope.

Definition origin : pt := (zero, zero).

(** One iteration of the loop of [polygon_area]. *)
Definition area_step (locs : list pt) (res : T) (i : nat) : T :=
  let n := length locs in
  let '(x1, y1) := nth i locs origin in
  let '(x2, y2) := nth ((i + 1) mod n)%nat locs origin in
  add res (sub (mul x1 y2) (mul y1 x2)).

Definition polygon_area (locs : list pt) : T :=
  let n := length locs in
  let res := fold_left (area_step locs) (seq 0 n) zero in
  div (abs res) two.

(** [operator<] of [std::array<T, 2>]: lexicographic. *)
Definition pt_ltb (a b : pt) : bool :=
  ltb (fst a) (fst b) || (negb (ltb (fst b) (fst a)) && ltb (snd a) (snd b)).

(** [p] may stand before [q] in the sorted array: [q < p] fails. *)
Definition in_order (p q : pt) : Prop := pt_ltb q p = false.

(** [std::sort], as an insertion sort by [pt_ltb].  [std::sort] leaves the
    order of points of which neither is before the other open (they differ
    at most in the sign of a zero, unless a coordinate is NaN); the
    insertion sort keeps them as they were read. *)
Fixpoint insert (p : pt) (l : list pt) : list pt :=
  match l with
  | [] => [p]
  | q :: l' => if pt_ltb q p then q :: insert p l' else p :: l
  end.

Definition sort (l : list pt) : list pt := fold_right insert [] l.

(** The [while] loop of [lower_hull]; the hull stack is kept with
    [hull.back()] at the head. *)
Fixpoint pop_while (hull : list pt) (p : pt) : list pt :=
  match hull with
  | b :: ((a :: _) as rest) =>
      if leb (cross (vsub b a) (vsub p b)) zero then pop_while rest p
      else hull
  | _ => hull
  end.

Definition hull_step (hull : list pt) (p : pt) : list pt :=
  p :: pop_while hull p.

Definition scan (locs : list pt) : list pt :=
  rev (fold_left hull_step locs []).

Definition lower_hull (locs : list pt) : list pt :=
  let locs := sort locs in
  if (length locs <? 2)%nat then locs else scan locs.

(** ** [solve] *)

(** [const T eps = 1e-7]: the [double] nearest to 1e-7, widened. *)
Definition eps : T := binary_normalize prec emax 7555786372591432 (-76) false.

Record sides : Type := mkSides { l1 : line; l2 : line; l3 : line; l4 : line }.

(** The projections' x-coordinates: [intersect(l1, make_line(pts[j], m2))[0]]. *)
Definition proj_x (l : line) (m2 : T) (p : pt) : T :=
  fst (intersect l (make_line p m2)).

(** The intercepts [make_line(pts[j], m1)[1]]. *)
Definition intercept (m1 : T) (p : pt) : T := snd (make_line p m1).

Definition perp (m1 : T) : T := div minus_one m1.

Definition min_proj (pts : list pt) (l : line) (m2 : T) : T :=
  fold_left (fun mn p => min mn (proj_x l m2 p)) pts big.

Definition max_proj (pts : list pt) (l : line) (m2 : T) : T :=
  fold_left (fun mx p => max mx (proj_x l m2 p)) pts minus_big.

Definition max_intercept (pts : list pt) (m1 : T) : T :=
  fold_left (fun mb p => max mb (intercept m1 p)) pts minus_big.

(** The four lines built for the hull edge [a], [b]. *)
Definition build (pts : list pt) (a b : pt) : sides :=
  let e1 := make_line_pts a b in
  let m1 := fst e1 in
  let m2 := perp m1 in
  let min_x := min_proj pts e1 m2 in
  let max_x := max_proj pts e1 m2 in
  let e2 := make_line (min_x, eval e1 min_x) m2 in
  let e3 := make_line (max_x, eval e1 max_x) m2 in
  let max_b := max_intercept pts m1 in
  let e4 := (m1, max_b) in
  mkSides e1 e2 e3 e4.

(** [std::abs(eval(l, x) - y) < eps]. *)
Definition near (l : line) (p : pt) : bool :=
  ltb (abs (sub (eval l (fst p)) (snd p))) eps.

(** The inner loop [works |= ...] over [{l1, l2, l3, l4}]. *)
Definition works (s : sides) (p : pt) : bool :=
  fold_left (fun w l => orb w (near l p)) [l1 s; l2 s; l3 s; l4 s] false.

(** The loop [good &= works]. *)
Definition good (pts : list pt) (s : sides) : bool :=
  fold_left (fun g p => andb g (works s p)) pts true.

(** [its]: the intersections of [segs[j]] and [segs[(j + 1) % 4]]. *)
Definition corners (s : sides) : list pt :=
  let segs := [l1 s; l3 s; l4 s; l2 s] in
  map (fun j => intersect (nth j segs (zero, zero))
                          (nth ((j + 1) mod 4)%nat segs (zero, zero)))
      (seq 0 4).

(** The loop over the hull edges [i], [i + 1]: [Some res] when the function
    prints [res] and returns, [None] when the loop runs to its end. *)
Fixpoint try_edges (pts : list pt) (hull : list pt) : option T :=
  match hull with
  | a :: ((b :: _) as rest) =>
      let s := build pts a b in
      if negb (good pts s) then try_edges pts rest
      else
        let res := polygon_area (corners s) in
        if negb (isnan res) then Some res else try_edges pts rest
  | _ => None
  end.

(** [x *= -1, y *= -1] on every point. *)
Definition reflect_pt (p : pt) : pt :=
  (mul (fst p) minus_one, mul (snd p) minus_one).

Definition reflect (pts : list pt) : list pt := map reflect_pt pts.

(** The loop [for (int t = 0; t < 2; t++)], with [t] iterations left: the
    value printed by an early [return], if any, and the point array as the
    loop leaves it. *)
Fixpoint passes (t : nat) (pts : list pt) : option T * list pt :=
  match t with
  | O => (None, pts)
  | S t' =>
      match try_edges pts (lower_hull pts) with
      | Some res => (Some res, pts)
      | None => passes t' (reflect pts)
      end
  end.

Definition min_xs (pts : list pt) : T :=
  fold_left (fun m p => min m (fst p)) pts big.
Definition max_xs (pts : list pt) : T :=
  fold_left (fun m p => max m (fst p)) pts minus_big.
Definition min_ys (pts : list pt) : T :=
  fold_left (fun m p => min m (snd p)) pts big.
Definition max_ys (pts : list pt) : T :=
  fold_left (fun m p => max m (snd p)) pts minus_big.

(** The tail of [solve]: the bounding box of the stored points. *)
Definition fallback (pts : list pt) : T :=
  mul (sub (max_ys pts) (min_ys pts)) (sub (max_xs pts) (min_xs pts)).

(** What [solve] writes to [std::cout] for the points read: the values
    passed to [operator<<], in order. *)
Definition solve (pts : list pt) : list T :=
  match passes 2 pts with
  | (Some res, _) => [res]
  | (None, pts') => [fallback pts']
  end.

(** One pass of the outer loop on the stored points. *)
Definition first_pass (pts : list pt) : option T :=
  try_edges pts (lower_hull pts).

(** ** The specification's vocabulary *)

(** Every input value is a [long double] that [operator>>] can store. *)
Definition valid_pt (p : pt) : bool := valid (fst p) && valid (snd p).
Definition valid_pts (pts : list pt) : bool := forallb valid_pt pts.

(** Every coordinate is a number, not an infinity. *)
Definition finite_pt (p : pt) : bool := finite (fst p) && finite (snd p).

(** Neither coordinate is NaN: the point can be compared with others. *)
Definition comparable (p : pt) : bool :=
  negb (isnan (fst p)) && negb (isnan (snd p)).

(** A coordinate of magnitude at most 1e9, the bound the sentinels of
    [solve] take for granted. *)
Definition in_range (x : T) : bool := valid x && leb minus_big x && leb x big.
Definition pt_in_range (p : pt) : bool := in_range (fst p) && in_range (snd p).

(** The point set rotated by 180 degrees about the origin. *)
Definition neg_pt (p : pt) : pt := (SFopp (fst p), SFopp (snd p)).
Definition rotate180 (pts : list pt) : list pt := map neg_pt pts.

(** The shoelace sum over the consecutive vertices [p_i], [p_(i+1)], the
    last one paired with the first, accumulated from the left. *)
Definition shoelace_sum (locs : list pt) : T :=
  fold_left (fun res pq => add res (cross (fst pq) (snd pq)))
            (combine locs (tl locs ++ firstn 1 locs)) zero.

(** [v] is the least (greatest) of [xs]: one of them, and none is below
    (above) it. *)
Definition least_of (v : T) (xs : list T) : Prop :=
  In v xs /\ forall x, In x xs -> ltb x v = false.
Definition greatest_of (v : T) (xs : list T) : Prop :=
  In v xs /\ forall x, In x xs -> ltb v x = false.

(** Every input point is within [eps] of one of the four lines. *)
Definition covered (pts : list pt) (s : sides) : Prop :=
  forall p, In p pts ->
    exists l, In l [l1 s; l2 s; l3 s; l4 s] /\ near l p = true.

(** Some input point is within [eps] of none of the four lines. *)
Definition uncovered (pts : list pt) (s : sides) : Prop :=
  exists p, In p pts /\
    forall l, In l [l1 s; l2 s; l3 s; l4 s] -> near l p = false.

(** The area [solve] computes for the hull edge [a], [b]. *)
Abbreviation edge_area pts a b := (polygon_area (corners (build pts a b))).

(** The candidate of the hull edge [a], [b] is printed: verified, and its
    area is a number. *)
Definition accepted (pts : list pt) (a b : pt) : bool :=
  good pts (build pts a b) && negb (isnan (edge_area pts a b)).

(** [a], [b] are adjacent in [hull]. *)
Definition adjacent (a b : pt) (hull : list pt) : Prop :=
  exists pre post, hull = pre ++ a :: b :: post.

(** The turn made at [b] on the way from [a] to [c]: the cross product of
    the two hull edges, as the [while] loop of [lower_hull] computes it. *)
Definition turn (a b c : pt) : T := cross (vsub b a) (vsub c b).

(** The hull stack (back first) makes, at every inner entry, a turn that
    the loop does not pop. *)
Fixpoint left_turns (hull : list pt) : Prop :=
  match hull with
  | c :: ((b :: a :: _) as rest) =>
      leb (turn a b c) zero = false /\ left_turns rest
  | _ => True
  end.

(** The rational number a stored value stands for. *)
Definition to_Q (x : T) : option Q :=
  match x with
  | S754_zero _ => Some (inject_Z 0)
  | S754_finite s m e =>
      Some (Qmult (inject_Z (cond_Zopp s (Zpos m))) (Qpower (inject_Z 2) e))
  | _ => None
  end.

Definition exact_pt (p : pt) : option (Q * Q) :=
  match to_Q (fst p), to_Q (snd p) with
  | Some x, Some y => Some (x, y)
  | _, _ => None
  end.

(** The three points lie on one line: the cross product of [b - a] and
    [c - b] is zero, in exact arithmetic. *)
Definition collinear (a b c : pt) : Prop :=
  match exact_pt a, exact_pt b, exact_pt c with
  | Some (ax, ay), Some (bx, by_), Some (cx, cy) =>
      Qeq (Qminus (Qmult (Qminus bx ax) (Qminus cy by_))
                  (Qmult (Qminus by_ ay) (Qminus cx bx)))
          (inject_Z 0)
  | _, _, _ => False
  end.

(** The slope computed for the edge [a], [b] is that of a horizontal or of
    a vertical line (a zero or an infinity), or is undefined. *)
Definition axis_parallel (a b : pt) : bool :=
  let m1 := fst (make_line_pts a b) in
  is_zero m1 || is_inf m1 || isnan m1.

(** The edges [hull[i]], [hull[i + 1]]. *)
Definition hull_edges (hull : list pt) : list (pt * pt) :=
  combine hull (tl hull).

(** The hull edge [e] is horizontal or vertical, or its candidate leaves a
    point within [eps] of none of its four lines. *)
Definition rejected (pts : list pt) (e : pt * pt) : bool :=
  axis_parallel (fst e) (snd e) ||
  negb (good pts (build pts (fst e) (snd e))).

(** [x] is one of the bounds [lo], [hi], bit for bit, or strictly between
    them. *)
Definition within (lo hi x : T) : Prop :=
  x = lo \/ x = hi \/ (ltb lo x = true /\ ltb x hi = true).

(** [p] is a point of the boundary of the axis-aligned rectangle with
    corners [(x0, y0)], [(x1, y0)], [(x1, y1)], [(x0, y1)]. *)
Definition on_rectangle (x0 x1 y0 y1 : T) (p : pt) : Prop :=
  ((fst p = x0 \/ fst p = x1) /\ within y0 y1 (snd p)) \/
  ((snd p = y0 \/ snd p = y1) /\ within x0 x1 (fst p)).

(** Each of the four sides of that rectangle carries a point of [pts]. *)
Definition on_every_side (x0 x1 y0 y1 : T) (pts : list pt) : Prop :=
  (exists p, In p pts /\ fst p = x0) /\
  (exists p, In p pts /\ fst p = x1) /\
  (exists p, In p pts /\ snd p = y0) /\
  (exists p, In p pts /\ snd p = y1).

(** The same configuration at twice the coordinate scale. *)
Definition double_pt (p : pt) : pt := (mul (fst p) two, mul (snd p) two).
Definition double_line (l : line) : line := (fst l, mul (snd l) two).

(** ** Sample inputs *)

Definition P (x y : Z) : pt := (of_Z x, of_Z y).

(** The decimal [n/d] as [operator>>] stores it: correctly rounded. *)
Definition dec (n d : Z) : T := div (of_Z n) (of_Z d).

(** The axis-aligned rectangle with corners (0,0), (4,0), (4,3), (0,3):
    five points per side, each corner once. *)
Definition rect20 : list pt :=
  [ (dec 0 10, dec 0 10); (dec 8 10, dec 0 10); (dec 16 10, dec 0 10);
    (dec 24 10, dec 0 10); (dec 32 10, dec 0 10);
    (dec 40 10, dec 0 10); (dec 40 10, dec 6 10); (dec 40 10, dec 12 10);
    (dec 40 10, dec 18 10); (dec 40 10, dec 24 10);
    (dec 40 10, dec 30 10); (dec 32 10, dec 30 10); (dec 24 10, dec 30 10);
    (dec 16 10, dec 30 10); (dec 8 10, dec 30 10);
    (dec 0 10, dec 30 10); (dec 0 10, dec 24 10); (dec 0 10, dec 18 10);
    (dec 0 10, dec 12 10); (dec 0 10, dec 6 10) ].

(** Fifteen points of the rectangle with corners (0,0), (7,0), (7,3), (0,3),
    all of them on its two horizontal sides. *)
Definition two_rows : list pt :=
  [ P 0 0; P 1 0; P 2 0; P 3 0; P 4 0; P 5 0; P 6 0; P 7 0;
    P 0 3; P 1 3; P 2 3; P 3 3; P 4 3; P 5 3; P 7 3 ].

(** Fifteen points of the tilted square with corners (0,0), (4,3), (1,7),
    (-3,4), of area 25. *)
Definition tilted : list pt :=
  [ P 0 0; P 4 3; P 1 7; P (-3) 4;
    (dec 8 10, dec 6 10); (dec 16 10, dec 12 10); (dec 24 10, dec 18 10);
    (dec 34 10, dec 38 10); (dec 28 10, dec 46 10); (dec 22 10, dec 54 10);
    (dec 2 10, dec 64 10); (dec (-6) 10, dec 58 10);
    (dec (-14) 10, dec 52 10); (dec (-24) 10, dec 32 10);
    (dec (-12) 10, dec 16 10) ].

(** Fifteen points of the 4 by 3 axis-aligned rectangle whose lower left
    corner is (2e9, 0). *)
Definition far_right : list pt :=
  map (fun xy => (add (of_Z 2000000000) (fst xy), snd xy))
      [ P 0 0; P 1 0; P 2 0; P 3 0; P 4 0; P 4 1; P 4 2; P 4 3; P 3 3;
        P 2 3; P 1 3; P 0 3; P 0 2; P 0 1; (dec 1 2, of_Z 0) ].

(** Fifteen points of the y-axis, from the least to the greatest
    [long double]. *)
Definition huge : T := SFmax_float prec emax.
Definition thin : list pt :=
  [ (zero, huge); (zero, SFopp huge); P 0 0; P 0 1; P 0 2; P 0 3; P 0 4;
    P 0 5; P 0 6; P 0 7; P 0 8; P 0 9; P 0 10; P 0 11; P 0 12 ].

(** Fifteen points of the parabola [y = x^2]: the boundary of no
    rectangle. *)
Definition parabola : list pt :=
  map (fun x => P x (x * x)) 
      [-7; -6; -5; -4; -3; -2; -1; 0; 1; 2; 3; 4; 5; 6; 7].

(** Fifteen points, three of them on the line [y = 3 x] and the others
    above it. *)
Definition on_a_line : list pt :=
  [ P 0 0; P 3 9; P (2 ^ 64 + 16) (3 * 2 ^ 64 + 48);
    P 1 100; P 2 100; P 4 100; P 5 100; P 6 100; P 7 100; P 8 100;
    P 9 100; P 10 100; P 11 100; P 12 100; P 13 100 ].

(** 2^k. *)
Definition pow2 (k : Z) : T := binary_normalize prec emax 1 k false.

(** Sixteen points of the rectangle with corners (0,0), (4,0), (4,3), (0,3),
    four inside each side and no corner. *)
Definition rect16 : list pt :=
  [ (dec 8 10, dec 0 10); (dec 16 10, dec 0 10); (dec 24 10, dec 0 10);
    (dec 32 10, dec 0 10);
    (dec 40 10, dec 6 10); (dec 40 10, dec 12 10); (dec 40 10, dec 18 10);
    (dec 40 10, dec 24 10);
    (dec 32 10, dec 30 10); (dec 24 10, dec 30 10); (dec 16 10, dec 30 10);
    (dec 8 10, dec 30 10);
    (dec 0 10, dec 24 10); (dec 0 10, dec 18 10); (dec 0 10, dec 12 10);
    (dec 0 10, dec 6 10) ].

(** Sixteen points of the square with corners (0,0), (4,0), (4,4), (0,4):
    the midpoints of its sides, each given four times. *)
Definition mid16 : list pt :=
  [ P 2 0; P 4 2; P 2 4; P 0 2; P 2 0; P 4 2; P 2 4; P 0 2;
    P 2 0; P 4 2; P 2 4; P 0 2; P 2 0; P 4 2; P 2 4; P 0 2 ].

(** Fifteen points of the rectangle with corners (0,0), (4,0), (4,3), (0,3),
    none of them on its right side. *)
Definition rect_open : list pt :=
  [ (dec 0 10, dec 0 10); (dec 8 10, dec 0 10); (dec 16 10, dec 0 10);
    (dec 24 10, dec 0 10); (dec 32 10, dec 0 10);
    (dec 32 10, dec 30 10); (dec 24 10, dec 30 10);
    (dec 16 10, dec 30 10); (dec 8 10, dec 30 10);
    (dec 0 10, dec 30 10); (dec 0 10, dec 24 10); (dec 0 10, dec 18 10);
    (dec 0 10, dec 15 10); (dec 0 10, dec 12 10); (dec 0 10, dec 6 10) ].

(** Fifteen points of the tilted square with corners (0,0), (4,3), (1,7),
    (-3,4), the last corner not among them: the first edge of their lower
    hull cuts that corner off. *)
Definition tilted_cut : list pt :=
  [ P 0 0; P 4 3; P 1 7;
    (dec 8 10, dec 6 10); (dec 16 10, dec 12 10); (dec 24 10, dec 18 10);
    (dec 34 10, dec 38 10); (dec 28 10, dec 46 10); (dec 22 10, dec 54 10);
    (dec 2 10, dec 64 10); (dec (-6) 10, dec 58 10);
    (dec (-14) 10, dec 52 10); (dec (-12) 10, dec 16 10);
    (dec 32 10, dec 24 10); (dec 16 10, dec 62 10) ].

(** ** The snippets of the lambda post *)

(** [int]: 32 bits, two's complement; overflow is undefined behaviour, and
    a function of the model returns [None] where the program has none. *)
Definition int_min : Z := -2147483648.
Definition int_max : Z := 2147483647.
Definition in_int (z : Z) : bool := (int_min <=? z) && (z <=? int_max).

(** [comp], and the lambda passed to [std::sort]: descending [first],
    ties by ascending [second]. *)
Definition comp (a b : Z * Z) : bool :=
  if fst a =? fst b then snd a <? snd b else fst a >? fst b.

(** [std::sort(begin, end, comp)], as an insertion sort. *)
Fixpoint insert_by {A : Type} (lt : A -> A -> bool) (x : A) (l : list A)
  : list A :=
  match l with
  | [] => [x]
  | y :: l' => if lt y x then y :: insert_by lt x l' else x :: l
  end.

Definition sort_by {A : Type} (lt : A -> A -> bool) (l : list A) : list A :=
  fold_right (insert_by lt) [] l.

(** The pairs the sorting program writes for the pairs read. *)
Definition main_sort (arr : list (Z * Z)) : list (Z * Z) := sort_by comp arr.

(** The order the comment of the program asks for: [a] may precede [b]. *)
Definition desc_then_asc (a b : Z * Z) : Prop :=
  fst a > fst b \/ (fst a = fst b /\ snd a <= snd b).

(** [std::gcd] of two [int]s; undefined when an absolute value is not an
    [int]. *)
Definition std_gcd (a b : Z) : option Z :=
  if (a =? int_min) || (b =? int_min) then None else Some (Z.gcd a b).

(** The lambda [lcm]: [a * b / std::gcd(a, b)], with [int] arithmetic. *)
Definition lcm (a b : Z) : option Z :=
  if in_int (a * b) then
    match std_gcd a b with
    | Some g => if g =? 0 then None else Some (Z.quot (a * b) g)
    | None => None
    end
  else None.

(** [a % b] for [b != 0]: the remainder of the truncating division,
    undefined for [INT_MIN % -1]. *)
Definition rem_int (a b : Z) : option Z :=
  if (a =? int_min) && (b =? -1) then None else Some (Z.rem a b).

(** The [std::function] [gcd], which calls itself: [fuel] bounds the depth
    of the recursion. *)
Fixpoint gcd_loop (fuel : nat) (a b : Z) : option Z :=
  match fuel with
  | O => None
  | S fuel' =>
      if b =? 0 then Some a
      else match rem_int a b with
           | Some r => gcd_loop fuel' b r
           | None => None
           end
  end.

Definition gcd (a b : Z) : option Z := gcd_loop (S (Z.abs_nat b)) a b.

(** [y_combinator_result::operator()]: [fun_(std::ref( *this ), args...)];
    the arguments are one tuple, and [fuel] bounds the depth of the calls
    through the reference. *)
Fixpoint y_combinator {X R : Type} (fuel : nat)
         (fun_ : (X -> option R) -> X -> option R) (args : X) : option R :=
  match fuel with
  | O => None
  | S fuel' => fun_ (y_combinator fuel' fun_) args
  end.

(** The lambda handed to [y_combinator]: [b == 0 ? a : gcd(b, a % b)]. *)
Definition gcd_lambda (self : Z * Z -> option Z) (ab : Z * Z) : option Z :=
  if snd ab =? 0 then Some (fst ab)
  else match rem_int (fst ab) (snd ab) with
       | Some r => self (snd ab, r)
       | None => None
       end.

(** [vis[u] = true]. *)
Definition mark (u : nat) (vis : list bool) : list bool :=
  firstn u vis ++ true :: skipn (S u) vis.

(** [for (int v : adj[u]) dfs(v);]: the calls one after the other, each on
    the array the one before left. *)
Fixpoint for_each (call : nat -> list bool -> option (list bool))
         (vs : list nat) (vis : list bool) : option (list bool) :=
  match vs with
  | [] => Some vis
  | v :: vs' =>
      match call v vis with
      | Some vis' => for_each call vs' vis'
      | None => None
      end
  end.

(** [dfs(u)] on the arrays [adj] and [vis]: the array [vis] as the call
    leaves it; [None] for an index outside the array read, and when [fuel],
    the bound on the depth of the recursion, runs out. *)
Fixpoint dfs (fuel : nat) (adj : list (list nat)) (u : nat) (vis : list bool)
  : option (list bool) :=
  match fuel with
  | O => None
  | S fuel' =>
      if (u <? length vis)%nat then
        if nth u vis false then Some vis
        else if (u <? length adj)%nat then
          for_each (dfs fuel' adj) (nth u adj []) (mark u vis)
        else None
      else None
  end.

(** Every entry of [adj] is an index of the arrays. *)
Definition graph_ok (adj : list (list nat)) : Prop :=
  forall u v, In v (nth u adj []) -> (v < length adj)%nat.

(** [w] can be reached from [u] along the edges of [adj]. *)
Inductive reach (adj : list (list nat)) (u : nat) : nat -> Prop :=
| reach_here : reach adj u u
| reach_edge w x :
    reach adj u w -> In x (nth w adj []) -> reach adj u x.

(** No index marked in [vis] is unmarked in [vis'], an array as long. *)
Definition extends (vis vis' : list bool) : Prop :=
  Forall2 (fun b b' : bool => b = true -> b' = true) vis vis'.

(** How many indices [vis] leaves unmarked. *)
Definition unvisited (vis : list bool) : nat := length (filter negb vis).

(** What a call [dfs(u)] that turns [vis] into [vis'] has done: it has
    unmarked nothing and marked [u], and every index it has marked can be
    reached from [u] and has its neighbours marked. *)
Definition explores (adj : list (list nat)) (u : nat) (vis vis' : list bool)
  : Prop :=
  extends vis vis' /\
  nth u vis' false = true /\
  forall w, nth w vis false = false -> nth w vis' false = true ->
            reach adj u w /\
            forall x, In x (nth w adj []) -> nth x vis' false = true.

(** [l] is [l'] with some elements left out. *)
Inductive subseq {A : Type} : list A -> list A -> Prop :=
| subseq_nil : subseq [] []
| subseq_skip x l l' : subseq l l' -> subseq l (x :: l')
| subseq_keep x l l' : subseq l l' -> subseq (x :: l) (x :: l').

(** * Facts about [long double] arithmetic *)

Section FloatFacts.

Lemma ltb_irrefl (x : T) : ltb x x = false.
Proof.
  unfold ltb, SFltb, SFcompare.
  destruct x as [s|s| |s m e]; try reflexivity; destruct s; try reflexivity;
    rewrite Z.compare_refl, Pos.compare_cont_refl; reflexivity.
Qed.

(** Case analysis on every comparison of exponents and significands in
    sight. *)
Ltac cmp_cases :=
  repeat match goal with
  | |- context [Z.compare ?a ?b] => destruct (Z.compare_spec a b)
  | H : context [Z.compare ?a ?b] |- _ => destruct (Z.compare_spec a b)
  | |- context [Pos.compare_cont Eq ?a ?b] =>
      change (Pos.compare_cont Eq a b) with (Pos.compare a b);
      destruct (Pos.compare_spec a b)
  | H : context [Pos.compare_cont Eq ?a ?b] |- _ =>
      change (Pos.compare_cont Eq a b) with (Pos.compare a b) in H;
      destruct (Pos.compare_spec a b)
  end.

Lemma ltb_trans (x y z : T) :
  ltb x y = true -> ltb y z = true -> ltb x z = true.
Proof.
  unfold ltb, SFltb, SFcompare.
  destruct x as [sx|sx| |sx mx ex], y as [sy|sy| |sy my ey],
    z as [sz|sz| |sz mz ez]; try discriminate;
    try destruct sx; try destruct sy; try destruct sz;
    try discriminate; try reflexivity;
    intros H1 H2; cmp_cases; subst; simpl in *;
    try discriminate; try reflexivity; try lia.
Qed.

(** Negation reverses the order. *)
Lemma ltb_opp (x y : T) : ltb (SFopp x) (SFopp y) = ltb y x.
Proof.
  unfold ltb, SFltb, SFcompare.
  destruct x as [sx|sx| |sx mx ex], y as [sy|sy| |sy my ey];
    try destruct sx; try destruct sy; try reflexivity; simpl;
    cmp_cases; subst; simpl; try reflexivity; try lia.
Qed.

Lemma opp_involutive (x : T) : SFopp (SFopp x) = x.
Proof. destruct x as [s|s| |s m e]; simpl; rewrite ?negb_involutive; reflexivity. Qed.

Lemma valid_opp (x : T) : valid (SFopp x) = valid x.
Proof. destruct x; reflexivity. Qed.

(** [x - 0 <= 0] fails and [x] is a number: then [0 < x]. *)
Lemma not_leb_zero (x : T) :
  leb x zero = false -> isnan x = false -> ltb zero x = true.
Proof.
  destruct x as [s|s| |s m e]; try destruct s; simpl; intros H1 H2;
    try discriminate; reflexivity.
Qed.

Lemma minus_one_eq : minus_one = S754_finite true 9223372036854775808 (-63).
Proof. reflexivity. Qed.

Lemma digits2_shift63 (m : positive) :
  Zpos (digits2_pos (Pos.mul 9223372036854775808 m))
  = Zpos (digits2_pos m) + 63.
Proof. cbn [Pos.mul digits2_pos]. lia. Qed.

Lemma shr_shift63 (m : positive) :
  iter_pos shr_1 63
    (Build_shr_record (Zpos (Pos.mul 9223372036854775808 m)) false false)
  = Build_shr_record (Zpos m) false false.
Proof. reflexivity. Qed.

(** Multiplying a stored value by [-1] is exact: it flips the sign. *)
Lemma mul_minus_one (x : T) : valid x = true -> mul x minus_one = SFopp x.
Proof.
  intros H. destruct x as [[]|[]| |s m e]; try reflexivity.
  unfold valid, valid_binary, bounded, canonical_mantissa in H.
  apply andb_true_iff in H. destruct H as [Hc Hb].
  apply Z.eqb_eq in Hc. apply Z.leb_le in Hb.
  rewrite minus_one_eq. unfold mul, SFmul, binary_round_aux.
  rewrite Pos.mul_comm.
  unfold shr_fexp at 1. unfold Zdigits2. rewrite digits2_shift63.
  replace (Z.pos (digits2_pos m) + 63 + (e + -63))
    with (Z.pos (digits2_pos m) + e) by lia.
  rewrite Hc. replace (e - (e + -63)) with 63 by lia.
  unfold shr_record_of_loc, shr. rewrite shr_shift63.
  cbn [shr_m loc_of_shr_record round_nearest_even].
  unfold shr_fexp, Zdigits2.
  replace (e + -63 + 63) with e by lia. rewrite Hc, Z.sub_diag.
  cbn [shr shr_record_of_loc shr_m].
  apply Z.leb_le in Hb. rewrite Hb.
  destruct s; reflexivity.
Qed.

Lemma cond_Zopp_negb (s : bool) (z : Z) :
  cond_Zopp (negb s) z = - cond_Zopp s z.
Proof. destruct s; simpl; lia. Qed.

(** [(-a) - (-b)] is [b - a], bit for bit. *)
Lemma sub_opp_opp (a b : T) : sub (SFopp a) (SFopp b) = sub b a.
Proof.
  destruct a as [sa|sa| |sa ma ea], b as [sb|sb| |sb mb eb];
    try (destruct sa, sb; reflexivity);
    try (destruct sa; reflexivity); try (destruct sb; reflexivity);
    try reflexivity.
  unfold sub, SFopp, SFsub. rewrite !cond_Zopp_negb, (Z.min_comm ea eb).
  f_equal. lia.
Qed.

(** [(-a) * (-b)] is [a * b], bit for bit. *)
Lemma mul_opp_opp (a b : T) : mul (SFopp a) (SFopp b) = mul a b.
Proof.
  destruct a as [sa|sa| |sa ma ea], b as [sb|sb| |sb mb eb]; unfold mul; simpl;
    try reflexivity; destruct sa, sb; reflexivity.
Qed.

Lemma mul_comm (a b : T) : mul a b = mul b a.
Proof.
  destruct a as [sa|sa| |sa ma ea], b as [sb|sb| |sb mb eb]; unfold mul; simpl;
    try reflexivity; try (destruct sa, sb; reflexivity).
  rewrite (Pos.mul_comm ma mb), (Z.add_comm ea eb), (xorb_comm sa sb).
  reflexivity.
Qed.

End FloatFacts.


(** * The lower hull *)

Lemma ltb_asym (x y : T) : ltb x y = true -> ltb y x = false.
Proof.
  intros H. destruct (ltb y x) eqn:E; [|reflexivity].
  rewrite <- (ltb_irrefl x). symmetry. exact (ltb_trans _ _ _ H E).
Qed.

Lemma pt_ltb_asym (p q : pt) : pt_ltb p q = true -> pt_ltb q p = false.
Proof.
  unfold pt_ltb. intros H. apply orb_true_iff in H.
  destruct H as [H|H].
  - rewrite (ltb_asym _ _ H), H. reflexivity.
  - apply andb_true_iff in H. destruct H as [H1 H2].
    apply negb_true_iff in H1. rewrite H1, (ltb_asym _ _ H2).
    now destruct (ltb (fst p) (fst q)).
Qed.

Lemma insert_permutation (p : pt) (l : list pt) :
  Permutation (insert p l) (p :: l).
Proof.
  induction l as [|q l IH]; cbn [insert]; [reflexivity|].
  destruct (pt_ltb q p); [|reflexivity].
  rewrite IH. apply perm_swap.
Qed.

(** The sorted array holds the points that were read. *)
Lemma sort_permutation (l : list pt) : Permutation (sort l) l.
Proof.
  induction l as [|p l IH]; [reflexivity|].
  unfold sort in *. cbn [fold_right].
  rewrite insert_permutation. now apply perm_skip.
Qed.

Lemma insert_hd (p q : pt) (l : list pt) :
  HdRel in_order q l -> pt_ltb q p = true -> HdRel in_order q (insert p l).
Proof.
  intros H Hq. destruct l as [|x l]; cbn [insert].
  - constructor. exact (pt_ltb_asym _ _ Hq).
  - destruct (pt_ltb x p); constructor.
    + now inversion H.
    + exact (pt_ltb_asym _ _ Hq).
Qed.

Lemma insert_sorted (p : pt) (l : list pt) :
  Sorted in_order l -> Sorted in_order (insert p l).
Proof.
  induction l as [|x l IH]; intros H; cbn [insert].
  - repeat constructor.
  - inversion H as [|? ? Hs Hh]; subst.
    destruct (pt_ltb x p) eqn:E.
    + constructor; [now apply IH | now apply insert_hd].
    + constructor; [exact H | constructor; exact E].
Qed.

(** The array is sorted by (x, y): no point is below its predecessor. *)
Lemma sort_sorted (l : list pt) : Sorted in_order (sort l).
Proof.
  induction l as [|p l IH]; [constructor|].
  unfold sort in *. cbn [fold_right]. now apply insert_sorted.
Qed.

Lemma pop_while_incl (p : pt) (hull : list pt) :
  incl (pop_while hull p) hull.
Proof.
  induction hull as [|b rest IH]; [apply incl_refl|].
  destruct rest as [|a rest']; [apply incl_refl|].
  cbn [pop_while].
  destruct (leb (cross (vsub b a) (vsub p b)) zero); [|apply incl_refl].
  apply incl_tl. exact IH.
Qed.

Lemma fold_hull_step_incl (locs hull : list pt) :
  incl (fold_left hull_step locs hull) (hull ++ locs).
Proof.
  revert hull. induction locs as [|p locs IH]; intros hull.
  - cbn [fold_left]. rewrite app_nil_r. apply incl_refl.
  - cbn [fold_left]. intros q Hq. apply IH in Hq.
    apply in_app_or in Hq. apply in_or_app.
    destruct Hq as [[<-|Hq]|Hq].
    + right. now left.
    + left. exact (pop_while_incl p hull q Hq).
    + right. now right.
Qed.

(** Every hull point is an input point. *)
Lemma lower_hull_incl (locs : list pt) : incl (lower_hull locs) locs.
Proof.
  intros q Hq. apply (Permutation_in q (sort_permutation locs)).
  unfold lower_hull in Hq.
  destruct (length (sort locs) <? 2)%nat; [exact Hq|].
  unfold scan in Hq. apply in_rev in Hq.
  exact (fold_hull_step_incl (sort locs) [] q Hq).
Qed.

Lemma left_turns_tail (p : pt) (hull : list pt) :
  left_turns (p :: hull) -> left_turns hull.
Proof.
  destruct hull as [|b [|a rest]]; simpl; try tauto.
Qed.

(** The [while] loop leaves a stack on which the new point can be pushed. *)
Lemma pop_while_left_turns (p : pt) (hull : list pt) :
  left_turns hull -> left_turns (p :: pop_while hull p).
Proof.
  induction hull as [|b rest IH]; intros H; [exact I|].
  destruct rest as [|a rest']; [exact I|].
  cbn [pop_while].
  destruct (leb (cross (vsub b a) (vsub p b)) zero) eqn:E.
  - apply IH. exact (left_turns_tail _ _ H).
  - split; [exact E | exact H].
Qed.

Lemma fold_hull_step_left_turns (locs hull : list pt) :
  left_turns hull -> left_turns (fold_left hull_step locs hull).
Proof.
  revert hull. induction locs as [|p locs IH]; intros hull H; [exact H|].
  simpl. apply IH. apply pop_while_left_turns. exact H.
Qed.

Lemma left_turns_inner (xs ys : list pt) (a b c : pt) :
  left_turns (xs ++ c :: b :: a :: ys) -> leb (turn a b c) zero = false.
Proof.
  induction xs as [|x xs IH]; intros H.
  - exact (proj1 H).
  - apply IH. exact (left_turns_tail _ _ H).
Qed.

Lemma scan_turns (locs pre post : list pt) (a b c : pt) :
  scan locs = pre ++ a :: b :: c :: post -> leb (turn a b c) zero = false.
Proof.
  unfold scan. intros H.
  apply (f_equal (@rev pt)) in H. rewrite rev_involutive in H.
  rewrite rev_app_distr in H. simpl in H. rewrite <- !app_assoc in H.
  simpl in H.
  apply (left_turns_inner (rev post) (rev pre)).
  rewrite <- H. apply fold_hull_step_left_turns. exact I.
Qed.

(** C2 (amended).  For every input, any three consecutive points [a], [b],
    [c] of the sequence [lower_hull] returns make a strict left turn as the
    program computes it: the points are sorted by (x, y), a point is popped
    whenever the cross product of the last two hull edges, computed in
    [long double], is [<= 0], and so on the returned hull that cross product
    is not [<= 0]: it is not zero and, being a number, it is positive. *)
Theorem lower_hull_turns_left (locs pre post : list pt) (a b c : pt) :
  lower_hull locs = pre ++ a :: b :: c :: post ->
  leb (turn a b c) zero = false /\
  SFeqb (turn a b c) zero = false /\
  (isnan (turn a b c) = false -> ltb zero (turn a b c) = true).
Proof.
  intros H.
  assert (Hle : leb (turn a b c) zero = false).
  { unfold lower_hull in H.
    destruct (length (sort locs) <? 2)%nat eqn:E.
    - apply Nat.ltb_lt in E. rewrite H in E.
      rewrite length_app in E. simpl in E. lia.
    - exact (scan_turns _ _ _ _ _ _ H). }
  split; [exact Hle|]. split.
  - revert Hle. unfold leb, SFleb, SFeqb.
    destruct (SFcompare (turn a b c) zero) as [[| |]|]; congruence.
  - intros Hn. exact (not_leb_zero _ Hle Hn).
Qed.

Lemma lower_hull_turns_left_witness :
  leb (turn (P (-3) 4) (dec (-24) 10, dec 32 10) (P 0 0)) zero = false /\
  SFeqb (turn (P (-3) 4) (dec (-24) 10, dec 32 10) (P 0 0)) zero = false /\
  (isnan (turn (P (-3) 4) (dec (-24) 10, dec 32 10) (P 0 0)) = false ->
   ltb zero (turn (P (-3) 4) (dec (-24) 10, dec 32 10) (P 0 0)) = true).
Proof.
  apply (lower_hull_turns_left tilted []
           [(dec 24 10, dec 18 10); P 4 3]).
  vm_compute. reflexivity.
Defined.

(** C2 as stated fails: (0,0), (3,9) and (2^64 + 16, 3 * 2^64 + 48) lie on
    the line [y = 3 x], exactly, and are consecutive on the lower hull of
    [on_a_line].  The difference [c - b], (2^64 + 13, 3 * 2^64 + 39), is
    rounded to (2^64 + 12, 3 * 2^64 + 40); of the two products,
    [3 * (3 * 2^64 + 40)] is rounded to [9 * 2^64 + 128] and
    [9 * (2^64 + 12)] to [9 * 2^64 + 112]; the cross product the program
    computes is 16, and nothing is popped. *)
Lemma collinear_points_kept :
  valid_pts on_a_line = true /\
  lower_hull on_a_line = [P 0 0; P 3 9; P (2 ^ 64 + 16) (3 * 2 ^ 64 + 48)] /\
  collinear (P 0 0) (P 3 9) (P (2 ^ 64 + 16) (3 * 2 ^ 64 + 48)) /\
  turn (P 0 0) (P 3 9) (P (2 ^ 64 + 16) (3 * 2 ^ 64 + 48)) = of_Z 16.
Proof.
  split; [vm_compute; reflexivity|]. split; [vm_compute; reflexivity|].
  split; vm_compute; reflexivity.
Qed.


(** * Verification of a candidate *)

Lemma works_eq (s : sides) (p : pt) :
  works s p = near (l1 s) p || near (l2 s) p || near (l3 s) p || near (l4 s) p.
Proof. reflexivity. Qed.

Lemma fold_andb (A : Type) (f : A -> bool) (l : list A) (g : bool) :
  fold_left (fun g p => andb g (f p)) l g = g && forallb f l.
Proof.
  revert g. induction l as [|x l IH]; intros g; simpl.
  - now rewrite andb_true_r.
  - rewrite IH. now rewrite andb_assoc.
Qed.

Lemma good_forallb (pts : list pt) (s : sides) :
  good pts s = forallb (works s) pts.
Proof. unfold good. now rewrite fold_andb. Qed.

Lemma works_true_iff (s : sides) (p : pt) :
  works s p = true <->
  exists l, In l [l1 s; l2 s; l3 s; l4 s] /\ near l p = true.
Proof.
  rewrite works_eq, !orb_true_iff. split.
  - intros [[[H|H]|H]|H]; eexists; (split; [|exact H]); simpl; auto.
  - intros [l [[E|[E|[E|[E|[]]]]] H]]; subst l; auto.
Qed.

Lemma works_false_iff (s : sides) (p : pt) :
  works s p = false <->
  forall l, In l [l1 s; l2 s; l3 s; l4 s] -> near l p = false.
Proof.
  rewrite works_eq, !orb_false_iff. split.
  - intros [[[H1 H2] H3] H4] l [E|[E|[E|[E|[]]]]]; subst l; assumption.
  - intros H. repeat split; apply H; simpl; auto.
Qed.

(** The two loops of the verification decide [covered]. *)
Lemma good_true_iff (pts : list pt) (s : sides) :
  good pts s = true <-> covered pts s.
Proof.
  rewrite good_forallb, forallb_forall. unfold covered.
  split; intros H p Hp; apply works_true_iff, H, Hp.
Qed.

Lemma good_false_iff (pts : list pt) (s : sides) :
  good pts s = false <-> uncovered pts s.
Proof.
  rewrite good_forallb. unfold uncovered. split.
  - induction pts as [|p pts IH]; simpl; [discriminate|].
    intros H. apply andb_false_iff in H. destruct H as [H|H].
    + exists p. split; [now left | now apply works_false_iff].
    + destruct (IH H) as [q [Hq Hn]]. exists q. split; [now right | exact Hn].
  - intros [p [Hp Hn]]. apply works_false_iff in Hn.
    destruct (forallb (works s) pts) eqn:E; [|reflexivity].
    rewrite forallb_forall in E. rewrite (E p Hp) in Hn. discriminate.
Qed.

(** * The search over the hull edges *)

Lemma try_edges_step (pts : list pt) (a b : pt) (rest : list pt) :
  try_edges pts (a :: b :: rest) =
  if accepted pts a b then Some (edge_area pts a b)
  else try_edges pts (b :: rest).
Proof.
  cbn [try_edges]. unfold accepted.
  destruct (good pts (build pts a b)); cbn [negb andb]; [|reflexivity].
  destruct (isnan (polygon_area (corners (build pts a b)))); reflexivity.
Qed.

Lemma accepted_false_iff (pts : list pt) (a b : pt) :
  accepted pts a b = false <->
  uncovered pts (build pts a b) \/ isnan (edge_area pts a b) = true.
Proof.
  unfold accepted. rewrite andb_false_iff, negb_false_iff, good_false_iff.
  tauto.
Qed.

Lemma accepted_true_iff (pts : list pt) (a b : pt) :
  accepted pts a b = true <->
  covered pts (build pts a b) /\ isnan (edge_area pts a b) = false.
Proof.
  unfold accepted. rewrite andb_true_iff, negb_true_iff, good_true_iff.
  tauto.
Qed.

Lemma adjacent_cons (a b p : pt) (hull : list pt) :
  adjacent a b hull -> adjacent a b (p :: hull).
Proof. intros [pre [post E]]. exists (p :: pre), post. now rewrite E. Qed.

Lemma adjacent_head (a b : pt) (rest : list pt) : adjacent a b (a :: b :: rest).
Proof. now exists [], rest. Qed.

(** A printed area is the area of an accepted edge of the hull. *)
Lemma try_edges_sound (pts hull : list pt) (res : T) :
  try_edges pts hull = Some res ->
  exists a b, adjacent a b hull /\ accepted pts a b = true /\
              res = edge_area pts a b.
Proof.
  induction hull as [|a hull IH]; [discriminate|].
  destruct hull as [|b rest]; [discriminate|].
  rewrite try_edges_step. destruct (accepted pts a b) eqn:E.
  - intros H. injection H as <-. exists a, b.
    split; [apply adjacent_head | split; [exact E | reflexivity]].
  - intros H. destruct (IH H) as [a' [b' [Hadj Hacc]]].
    exists a', b'. split; [now apply adjacent_cons | exact Hacc].
Qed.

(** Edges are tried from the front of the hull: the first accepted one
    decides. *)
Lemma try_edges_first (pts pre post : list pt) (a b : pt) :
  (forall a' b', adjacent a' b' (pre ++ [a]) -> accepted pts a' b' = false) ->
  accepted pts a b = true ->
  try_edges pts (pre ++ a :: b :: post) = Some (edge_area pts a b).
Proof.
  induction pre as [|p pre IH]; intros Hpre Hacc.
  - cbn [app]. rewrite try_edges_step, Hacc. reflexivity.
  - assert (Hstep : exists q tl, pre ++ a :: b :: post = q :: tl /\
                                 exists tl', pre ++ [a] = q :: tl').
    { destruct pre as [|q pre']; simpl; eauto. }
    destruct Hstep as [q [tl [E [tl' E']]]].
    change ((p :: pre) ++ a :: b :: post) with (p :: (pre ++ a :: b :: post)).
    rewrite E, try_edges_step.
    rewrite (Hpre p q).
    + rewrite <- E. apply IH; [|exact Hacc].
      intros a' b' Hadj. apply Hpre. simpl. now apply adjacent_cons.
    + exists [], tl'. simpl. now rewrite E'.
Qed.

(** No accepted edge: the loop runs to its end. *)
Lemma try_edges_none (pts hull : list pt) :
  (forall a b, adjacent a b hull -> accepted pts a b = false) ->
  try_edges pts hull = None.
Proof.
  induction hull as [|a hull IH]; [reflexivity|].
  destruct hull as [|b rest]; [reflexivity|].
  intros H. rewrite try_edges_step, (H a b (adjacent_head _ _ _)).
  apply IH. intros a' b' Hadj. apply H. now apply adjacent_cons.
Qed.

(** C1 (amended).  The candidate of a hull edge is printed only when every
    input point is within [eps] of one of its four lines; a point that fails
    all four rejects the candidate, and the search goes on with the next hull
    edge; the edges are tried in hull order, and the first candidate that is
    verified and whose area is a number stops the search with that area. *)
Theorem first_verified_number_stops (pts : list pt) :
  (forall hull res,
      try_edges pts hull = Some res ->
      exists a b, adjacent a b hull /\ covered pts (build pts a b) /\
                  res = edge_area pts a b) /\
  (forall a b rest,
      uncovered pts (build pts a b) ->
      try_edges pts (a :: b :: rest) = try_edges pts (b :: rest)) /\
  (forall pre a b post,
      (forall a' b', adjacent a' b' (pre ++ [a]) ->
         uncovered pts (build pts a' b') \/
         isnan (edge_area pts a' b') = true) ->
      covered pts (build pts a b) ->
      isnan (edge_area pts a b) = false ->
      try_edges pts (pre ++ a :: b :: post) = Some (edge_area pts a b)).
Proof.
  split; [|split].
  - intros hull res H.
    destruct (try_edges_sound _ _ _ H) as [a [b [Hadj [Hacc Hres]]]].
    exists a, b. apply accepted_true_iff in Hacc. tauto.
  - intros a b rest H. rewrite try_edges_step.
    replace (accepted pts a b) with false; [reflexivity|].
    symmetry. apply accepted_false_iff. now left.
  - intros pre a b post Hpre Hcov Hnum. apply try_edges_first.
    + intros a' b' Hadj. apply accepted_false_iff. now apply Hpre.
    + apply accepted_true_iff. now split.
Qed.

Lemma first_verified_number_stops_witness :
  try_edges tilted
    ([] ++ P (-3) 4 :: (dec (-24) 10, dec 32 10)
        :: [P 0 0; (dec 24 10, dec 18 10); P 4 3])
  = Some (edge_area tilted (P (-3) 4) (dec (-24) 10, dec 32 10)).
Proof.
  apply (proj2 (proj2 (first_verified_number_stops tilted))).
  - intros a' b' [pre [post E]].
    destruct pre as [|x [|y pre]]; discriminate E.
  - apply good_true_iff. vm_compute. reflexivity.
  - vm_compute. reflexivity.
Defined.

(** C1 as stated fails: on [two_rows] the first hull edge, (0,0)-(7,0), is
    verified (every point is on [l1] or [l4]), yet the search does not stop
    with it: its area is NaN, the loop goes on, and the answer comes from
    the bounding box. *)
Lemma first_verified_does_not_stop :
  lower_hull two_rows = [P 0 0; P 7 0; P 7 3] /\
  covered two_rows (build two_rows (P 0 0) (P 7 0)) /\
  try_edges two_rows (lower_hull two_rows)
    <> Some (edge_area two_rows (P 0 0) (P 7 0)) /\
  solve two_rows = [of_Z 21].
Proof.
  split; [vm_compute; reflexivity|]. split.
  - apply good_true_iff. vm_compute. reflexivity.
  - split; [|vm_compute; reflexivity].
    vm_compute. discriminate.
Qed.


(** * The area *)

Lemma corners_cyclic (s : sides) :
  corners s = [ intersect (l1 s) (l3 s); intersect (l3 s) (l4 s);
                intersect (l4 s) (l2 s); intersect (l2 s) (l1 s) ].
Proof. reflexivity. Qed.

Lemma nth_tl (A : Type) (l : list A) (i : nat) (d : A) :
  nth i (tl l) d = nth (S i) l d.
Proof. destruct l; [destruct i|]; reflexivity. Qed.

(** The vertex after [locs[i]], as the loop indexes it and as the rotated
    list gives it. *)
Lemma nth_successor (locs : list pt) (i : nat) :
  (i < length locs)%nat ->
  nth ((i + 1) mod length locs)%nat locs origin
  = nth i (tl locs ++ firstn 1 locs) origin.
Proof.
  intros Hi.
  assert (Htl : length (tl locs) = (length locs - 1)%nat)
    by (destruct locs; simpl; lia).
  destruct (Nat.eq_dec (i + 1) (length locs)) as [E|E].
  - rewrite E, Nat.Div0.mod_same.
    rewrite app_nth2 by lia.
    replace (i - length (tl locs))%nat with O by lia.
    destruct locs; reflexivity.
  - rewrite Nat.mod_small by lia.
    rewrite app_nth1 by lia.
    rewrite nth_tl. f_equal. lia.
Qed.

Lemma rotated_length (locs : list pt) :
  length (tl locs ++ firstn 1 locs) = length locs.
Proof. destruct locs as [|p locs]; simpl; [reflexivity|]. rewrite length_app. simpl. lia. Qed.

Lemma area_step_cross (locs : list pt) (res : T) (i : nat) :
  (i < length locs)%nat ->
  area_step locs res i
  = add res (cross (nth i locs origin)
                   (nth i (tl locs ++ firstn 1 locs) origin)).
Proof.
  intros Hi. unfold area_step. rewrite (nth_successor locs i Hi).
  destruct (nth i locs origin) as [x1 y1].
  destruct (nth i (tl locs ++ firstn 1 locs) origin) as [x2 y2].
  reflexivity.
Qed.

Lemma fold_area_step (locs : list pt) (k n : nat) (res : T) :
  (k + n <= length locs)%nat ->
  fold_left (area_step locs) (seq k n) res
  = fold_left (fun res pq => add res (cross (fst pq) (snd pq)))
      (firstn n (skipn k (combine locs (tl locs ++ firstn 1 locs)))) res.
Proof.
  revert k res. induction n as [|n IH]; intros k res Hk; [reflexivity|].
  cbn [seq fold_left].
  assert (Hlen : length (combine locs (tl locs ++ firstn 1 locs)) = length locs).
  { rewrite length_combine, rotated_length. lia. }
  destruct (skipn k (combine locs (tl locs ++ firstn 1 locs))) as [|pq rest] eqn:E.
  - apply (f_equal (@length _)) in E. rewrite length_skipn, Hlen in E.
    simpl in E. lia.
  - assert (Hpq : pq = (nth k locs origin,
                        nth k (tl locs ++ firstn 1 locs) origin)).
    { rewrite <- (combine_nth locs (tl locs ++ firstn 1 locs) k origin origin)
        by (now rewrite rotated_length).
      rewrite <- (firstn_skipn k (combine locs (tl locs ++ firstn 1 locs))) at 1.
      rewrite E, app_nth2; rewrite length_firstn, Hlen; [|lia].
      replace (k - Nat.min k (length locs))%nat with O by lia. reflexivity. }
    assert (Hrest : rest = skipn (S k) (combine locs (tl locs ++ firstn 1 locs))).
    { change rest with (skipn 1 (pq :: rest)). rewrite <- E, skipn_skipn.
      f_equal. }
    cbn [firstn fold_left]. rewrite area_step_cross by lia.
    rewrite Hpq, Hrest. cbn [fst snd]. apply IH. lia.
Qed.

(** [polygon_area] computes the shoelace value. *)
Lemma polygon_area_shoelace (locs : list pt) :
  polygon_area locs = div (abs (shoelace_sum locs)) two.
Proof.
  unfold polygon_area, shoelace_sum. f_equal. f_equal.
  rewrite fold_area_step by lia. cbn [skipn].
  rewrite firstn_all2; [reflexivity|].
  rewrite length_combine, rotated_length. lia.
Qed.

(** Rounding keeps the sign. *)
Lemma binary_round_aux_sign (s : bool) (m e : Z) (l : location) :
  match binary_round_aux prec emax s m e l with
  | S754_zero s' | S754_infinity s' | S754_finite s' _ _ => s' = s
  | S754_nan => True
  end.
Proof.
  unfold binary_round_aux.
  destruct (shr_fexp prec emax m e l) as [mrs' e'].
  destruct (shr_fexp prec emax _ e' loc_Exact) as [mrs'' e''].
  destruct (shr_m mrs''); [reflexivity| |exact I].
  destruct (e'' <=? emax - prec); reflexivity.
Qed.

Lemma half_abs_sign (r : T) :
  match div (abs r) two with
  | S754_zero s | S754_infinity s | S754_finite s _ _ => s = false
  | S754_nan => True
  end.
Proof.
  destruct r as [s|s| |s m e]; try reflexivity; try exact I.
  unfold div, abs, SFabs, two. 
  change (of_Z 2) with (S754_finite false 9223372036854775808 (-62)).
  unfold SFdiv.
  destruct (SFdiv_core_binary prec emax (Z.pos m) e
              (Z.pos 9223372036854775808) (-62)) as [[mz ez] lz].
  apply binary_round_aux_sign.
Qed.

(** [polygon_area] is never negative, and is at least zero when it is a
    number. *)
Lemma polygon_area_nonneg (locs : list pt) :
  ltb (polygon_area locs) zero = false /\
  (isnan (polygon_area locs) = false -> leb zero (polygon_area locs) = true).
Proof.
  unfold polygon_area.
  pose proof (half_abs_sign (fold_left (area_step locs) (seq 0 (length locs)) zero)) as H.
  cbv zeta.
  destruct (div (abs (fold_left (area_step locs) (seq 0 (length locs)) zero)) two)
    as [s|s| |s m e]; try subst s; split; try reflexivity; try discriminate.
Qed.

Lemma corners_area_shoelace (s : sides) :
  polygon_area (corners s)
  = div (abs (shoelace_sum
           [ intersect (l1 s) (l3 s); intersect (l3 s) (l4 s);
             intersect (l4 s) (l2 s); intersect (l2 s) (l1 s) ])) two.
Proof. rewrite polygon_area_shoelace, corners_cyclic. reflexivity. Qed.

(** C4 (amended).  When the candidate of the hull edge [a], [b] is the first
    one accepted, its corners are [l1 x l3], [l3 x l4], [l4 x l2],
    [l2 x l1] (adjacent sides, taken cyclically) and the search reports
    their shoelace value: the absolute value of the sum of
    [x_i * y_(i+1) - y_i * x_(i+1)] over consecutive corners, halved; that
    value is at least zero, and [solve] prints what a pass reports.  For
    every vertex list [polygon_area] is that shoelace value; it is never
    below zero, and it is at least zero whenever it is a number. *)
Theorem accepted_area_is_shoelace :
  (forall pts pre a b post,
      (forall a' b', adjacent a' b' (pre ++ [a]) ->
                     accepted pts a' b' = false) ->
      accepted pts a b = true ->
      let s := build pts a b in
      corners s = [ intersect (l1 s) (l3 s); intersect (l3 s) (l4 s);
                    intersect (l4 s) (l2 s); intersect (l2 s) (l1 s) ] /\
      try_edges pts (pre ++ a :: b :: post)
      = Some (div (abs (shoelace_sum (corners s))) two) /\
      leb zero (div (abs (shoelace_sum (corners s))) two) = true /\
      (lower_hull pts = pre ++ a :: b :: post ->
       solve pts = [div (abs (shoelace_sum (corners s))) two])) /\
  (forall pts res,
      first_pass pts = Some res \/
      (first_pass pts = None /\ first_pass (reflect pts) = Some res) ->
      solve pts = [res]) /\
  (forall locs, polygon_area locs = div (abs (shoelace_sum locs)) two) /\
  (forall locs,
      ltb (polygon_area locs) zero = false /\
      (isnan (polygon_area locs) = false ->
       leb zero (polygon_area locs) = true)).
Proof.
  split; [|split; [|split]].
  - intros pts pre a b post Hpre Hacc. cbv zeta.
    pose proof (try_edges_first pts pre post a b Hpre Hacc) as Hfirst.
    apply accepted_true_iff in Hacc. destruct Hacc as [_ Hnum].
    pose proof (proj2 (polygon_area_nonneg _) Hnum) as Hpos.
    rewrite polygon_area_shoelace in Hfirst, Hpos.
    split; [apply corners_cyclic|]. split; [exact Hfirst|].
    split; [exact Hpos|].
    intros Hhull. unfold solve. cbn [passes].
    rewrite Hhull, Hfirst. reflexivity.
  - intros pts res H. unfold solve, first_pass in *. cbn [passes].
    destruct H as [H|[H1 H2]]; [rewrite H|rewrite H1, H2]; reflexivity.
  - exact polygon_area_shoelace.
  - exact polygon_area_nonneg.
Qed.

(** On [tilted_cut] the first hull edge cuts a corner off and is not
    accepted; the second lies on a side of the square, and 25 is printed. *)
Lemma accepted_area_is_shoelace_witness :
  lower_hull tilted_cut
  = [(dec (-14) 10, dec 52 10)] ++ (dec (-12) 10, dec 16 10) :: P 0 0
      :: [(dec 24 10, dec 18 10); P 4 3] /\
  accepted tilted_cut (dec (-14) 10, dec 52 10) (dec (-12) 10, dec 16 10)
  = false /\
  accepted tilted_cut (dec (-12) 10, dec 16 10) (P 0 0) = true /\
  try_edges tilted_cut
    ([(dec (-14) 10, dec 52 10)] ++ (dec (-12) 10, dec 16 10) :: P 0 0
       :: [(dec 24 10, dec 18 10); P 4 3])
  = Some (of_Z 25) /\
  solve tilted_cut = [of_Z 25].
Proof.
  assert (Hhull : lower_hull tilted_cut
                  = [(dec (-14) 10, dec 52 10)]
                      ++ (dec (-12) 10, dec 16 10) :: P 0 0
                      :: [(dec 24 10, dec 18 10); P 4 3])
    by (vm_compute; reflexivity).
  assert (Hrej : accepted tilted_cut (dec (-14) 10, dec 52 10)
                          (dec (-12) 10, dec 16 10) = false)
    by (vm_compute; reflexivity).
  assert (Hacc : accepted tilted_cut (dec (-12) 10, dec 16 10) (P 0 0) = true)
    by (vm_compute; reflexivity).
  assert (Hpre : forall a' b',
             adjacent a' b' ([(dec (-14) 10, dec 52 10)]
                               ++ [(dec (-12) 10, dec 16 10)]) ->
             accepted tilted_cut a' b' = false).
  { intros a' b' [pre [post E]].
    destruct pre as [|x [|y pre]]; try discriminate E.
    - injection E as <- <- _. exact Hrej.
    - destruct pre; discriminate E. }
  pose proof (proj1 accepted_area_is_shoelace tilted_cut
                [(dec (-14) 10, dec 52 10)] (dec (-12) 10, dec 16 10)
                (P 0 0) [(dec 24 10, dec 18 10); P 4 3] Hpre Hacc) as H.
  cbv zeta in H. destruct H as (_ & Htry & _ & Hsolve).
  split; [exact Hhull|]. split; [exact Hrej|]. split; [exact Hacc|].
  split.
  - etransitivity; [exact Htry|]. vm_compute. reflexivity.
  - etransitivity; [exact (Hsolve Hhull)|]. vm_compute. reflexivity.
Defined.

(** C4 as stated fails in its last part: [polygon_area] is not non-negative
    for every vertex list.  The corners computed for the horizontal hull
    edge (0,0)-(7,0) of [two_rows], whose candidate is verified, are four
    vertices the program passes to it; the value is NaN, and [0 <= NaN] is
    false. *)
Lemma polygon_area_not_a_number :
  good two_rows (build two_rows (P 0 0) (P 7 0)) = true /\
  length (corners (build two_rows (P 0 0) (P 7 0))) = 4%nat /\
  isnan (polygon_area (corners (build two_rows (P 0 0) (P 7 0)))) = true /\
  leb zero (polygon_area (corners (build two_rows (P 0 0) (P 7 0))))
  = false.
Proof.
  split; [vm_compute; reflexivity|]. split; [reflexivity|].
  split; vm_compute; reflexivity.
Qed.


(** * Running minima and maxima *)

Lemma min_step_least (m v : T) (seen : list T) :
  least_of m seen -> least_of (min m v) (seen ++ [v]).
Proof.
  intros [Hin Hlow]. unfold min. destruct (ltb v m) eqn:E.
  - split; [apply in_or_app; right; now left|].
    intros x Hx. apply in_app_or in Hx. destruct Hx as [Hx|[<-|[]]].
    + destruct (ltb x v) eqn:Exv; [|reflexivity].
      rewrite <- (Hlow x Hx). symmetry. exact (ltb_trans _ _ _ Exv E).
    + apply ltb_irrefl.
  - split; [apply in_or_app; now left|].
    intros x Hx. apply in_app_or in Hx. destruct Hx as [Hx|[<-|[]]].
    + exact (Hlow x Hx).
    + exact E.
Qed.

Lemma max_step_greatest (m v : T) (seen : list T) :
  greatest_of m seen -> greatest_of (max m v) (seen ++ [v]).
Proof.
  intros [Hin Hup]. unfold max. destruct (ltb m v) eqn:E.
  - split; [apply in_or_app; right; now left|].
    intros x Hx. apply in_app_or in Hx. destruct Hx as [Hx|[<-|[]]].
    + destruct (ltb v x) eqn:Evx; [|reflexivity].
      rewrite <- (Hup x Hx). symmetry. exact (ltb_trans _ _ _ E Evx).
    + apply ltb_irrefl.
  - split; [apply in_or_app; now left|].
    intros x Hx. apply in_app_or in Hx. destruct Hx as [Hx|[<-|[]]].
    + exact (Hup x Hx).
    + exact E.
Qed.

Section Folds.

Context {A : Type} (f : A -> T).

Lemma fold_min_seen (l : list A) (m : T) (seen : list T) :
  least_of m seen ->
  least_of (fold_left (fun m p => min m (f p)) l m) (seen ++ map f l).
Proof.
  revert m seen. induction l as [|p l IH]; intros m seen H.
  - cbn [map fold_left]. now rewrite app_nil_r.
  - cbn [map fold_left].
    change (seen ++ f p :: map f l) with (seen ++ [f p] ++ map f l).
    rewrite app_assoc. apply IH. now apply min_step_least.
Qed.

Lemma fold_max_seen (l : list A) (m : T) (seen : list T) :
  greatest_of m seen ->
  greatest_of (fold_left (fun m p => max m (f p)) l m) (seen ++ map f l).
Proof.
  revert m seen. induction l as [|p l IH]; intros m seen H.
  - cbn [map fold_left]. now rewrite app_nil_r.
  - cbn [map fold_left].
    change (seen ++ f p :: map f l) with (seen ++ [f p] ++ map f l).
    rewrite app_assoc. apply IH. now apply max_step_greatest.
Qed.

(** The running minimum is the least of the sentinel and the values. *)
Lemma fold_min_least (l : list A) (init : T) :
  least_of (fold_left (fun m p => min m (f p)) l init) (init :: map f l).
Proof.
  apply (fold_min_seen l init [init]).
  split; [now left|]. intros x [<-|[]]. apply ltb_irrefl.
Qed.

Lemma fold_max_greatest (l : list A) (init : T) :
  greatest_of (fold_left (fun m p => max m (f p)) l init) (init :: map f l).
Proof.
  apply (fold_max_seen l init [init]).
  split; [now left|]. intros x [<-|[]]. apply ltb_irrefl.
Qed.

End Folds.

(** A value that compares equal to a nonzero number is that number. *)
Lemma compare_eq_number (x : T) (s : bool) (m : positive) (e : Z) :
  SFcompare x (S754_finite s m e) = Some Eq -> x = S754_finite s m e.
Proof.
  destruct x as [sx|sx| |sx mx ex]; simpl;
    try (destruct s; discriminate); try (destruct sx; discriminate);
    try discriminate.
  destruct sx, s; try discriminate;
    destruct (Z.compare_spec ex e); try discriminate; subst;
    change (Pos.compare_cont Eq mx m) with (Pos.compare mx m);
    destruct (Pos.compare_spec mx m); try discriminate; subst; reflexivity.
Qed.

Lemma compare_number_eq (x : T) (s : bool) (m : positive) (e : Z) :
  SFcompare (S754_finite s m e) x = Some Eq -> x = S754_finite s m e.
Proof.
  destruct x as [sx|sx| |sx mx ex]; simpl;
    try (destruct s; discriminate); try (destruct sx; discriminate);
    try discriminate.
  destruct sx, s; try discriminate;
    destruct (Z.compare_spec e ex); try discriminate; subst;
    change (Pos.compare_cont Eq m mx) with (Pos.compare m mx);
    destruct (Pos.compare_spec m mx); try discriminate; subst; reflexivity.
Qed.

(** When some value is at most the sentinel 1e9, the least of the sentinel
    and the values is the least of the values. *)
Lemma least_without_sentinel (v : T) (xs : list T) :
  least_of v (big :: xs) ->
  (exists x, In x xs /\ leb x big = true) ->
  least_of v xs.
Proof.
  intros [Hin Hlow] [x [Hx Hle]].
  assert (Hv : In v xs).
  { destruct Hin as [<-|Hin]; [|exact Hin].
    pose proof (Hlow x (or_intror Hx)) as Hlt.
    assert (E : x = big).
    { apply (compare_eq_number x false 17179869184000000000 (-34)).
      revert Hle Hlt. unfold leb, ltb, SFleb, SFltb.
      change big with (S754_finite false 17179869184000000000 (-34)).
      destruct (SFcompare x _) as [[| |]|]; congruence. }
    now rewrite <- E. }
  split; [exact Hv|]. intros y Hy. apply Hlow. now right.
Qed.

Lemma greatest_without_sentinel (v : T) (xs : list T) :
  greatest_of v (minus_big :: xs) ->
  (exists x, In x xs /\ leb minus_big x = true) ->
  greatest_of v xs.
Proof.
  intros [Hin Hup] [x [Hx Hle]].
  assert (Hv : In v xs).
  { destruct Hin as [<-|Hin]; [|exact Hin].
    pose proof (Hup x (or_intror Hx)) as Hlt.
    assert (E : x = minus_big).
    { apply (compare_number_eq x true 17179869184000000000 (-34)).
      revert Hle Hlt. unfold leb, ltb, SFleb, SFltb.
      change minus_big with (S754_finite true 17179869184000000000 (-34)).
      destruct (SFcompare _ x) as [[| |]|]; congruence. }
    now rewrite <- E. }
  split; [exact Hv|]. intros y Hy. apply Hup. now right.
Qed.


(** * The four sides of a candidate *)

(** C3 (amended).  For the hull edge [a], [b] with line [l1] of slope [m1]:
    the perpendicular slope is [m2 = -1 / m1]; [l2] and [l3] are the lines
    of slope [m2] through the points of [l1] at [x = min_x] and [x = max_x],
    where [min_x] is the least of 1e9 and the x-coordinates of the
    projections of the input points onto [l1], and [max_x] the greatest of
    -1e9 and those x-coordinates; [l4] has slope [m1] and as intercept the
    greatest of -1e9 and the intercepts of the lines of slope [m1] through
    the input points.  When a projection (an intercept) lies on the sentinel's
    side, the sentinel drops out and the extreme is the one over the input
    points. *)
Theorem build_sides_from_extremes (pts : list pt) (a b : pt) :
  exists min_x max_x max_b,
    let e1 := make_line_pts a b in
    let m1 := fst e1 in
    let m2 := div minus_one m1 in
    let xs := map (proj_x e1 m2) pts in
    let bs := map (intercept m1) pts in
    build pts a b
    = mkSides e1 (make_line (min_x, eval e1 min_x) m2)
              (make_line (max_x, eval e1 max_x) m2) (m1, max_b) /\
    least_of min_x (big :: xs) /\
    greatest_of max_x (minus_big :: xs) /\
    greatest_of max_b (minus_big :: bs) /\
    ((exists x, In x xs /\ leb x big = true) -> least_of min_x xs) /\
    ((exists x, In x xs /\ leb minus_big x = true) -> greatest_of max_x xs) /\
    ((exists x, In x bs /\ leb minus_big x = true) -> greatest_of max_b bs).
Proof.
  exists (min_proj pts (make_line_pts a b) (perp (fst (make_line_pts a b)))),
         (max_proj pts (make_line_pts a b) (perp (fst (make_line_pts a b)))),
         (max_intercept pts (fst (make_line_pts a b))).
  unfold build. cbv zeta. fold (perp (fst (make_line_pts a b))).
  generalize (make_line_pts a b). intros e1.
  generalize (perp (fst e1)). intros m2.
  assert (Hmin := fold_min_least (proj_x e1 m2) pts big).
  assert (Hmax := fold_max_greatest (proj_x e1 m2) pts minus_big).
  assert (Hb := fold_max_greatest (intercept (fst e1)) pts minus_big).
  fold (min_proj pts e1 m2) in Hmin. fold (max_proj pts e1 m2) in Hmax.
  fold (max_intercept pts (fst e1)) in Hb.
  split; [reflexivity|].
  split; [exact Hmin|]. split; [exact Hmax|]. split; [exact Hb|].
  split; [exact (least_without_sentinel _ _ Hmin)|].
  split; [exact (greatest_without_sentinel _ _ Hmax)|].
  exact (greatest_without_sentinel _ _ Hb).
Qed.

Lemma build_sides_from_extremes_witness :
  exists min_x max_x max_b,
    build tilted (P (-3) 4) (dec (-24) 10, dec 32 10)
    = mkSides (make_line_pts (P (-3) 4) (dec (-24) 10, dec 32 10))
        (make_line
           (min_x, eval (make_line_pts (P (-3) 4) (dec (-24) 10, dec 32 10)) min_x)
           (div minus_one
              (fst (make_line_pts (P (-3) 4) (dec (-24) 10, dec 32 10)))))
        (make_line
           (max_x, eval (make_line_pts (P (-3) 4) (dec (-24) 10, dec 32 10)) max_x)
           (div minus_one
              (fst (make_line_pts (P (-3) 4) (dec (-24) 10, dec 32 10)))))
        (fst (make_line_pts (P (-3) 4) (dec (-24) 10, dec 32 10)), max_b) /\
    least_of min_x
      (map (proj_x (make_line_pts (P (-3) 4) (dec (-24) 10, dec 32 10))
              (div minus_one
                 (fst (make_line_pts (P (-3) 4) (dec (-24) 10, dec 32 10)))))
           tilted) /\
    greatest_of max_x
      (map (proj_x (make_line_pts (P (-3) 4) (dec (-24) 10, dec 32 10))
              (div minus_one
                 (fst (make_line_pts (P (-3) 4) (dec (-24) 10, dec 32 10)))))
           tilted) /\
    greatest_of max_b
      (map (intercept
              (fst (make_line_pts (P (-3) 4) (dec (-24) 10, dec 32 10))))
           tilted).
Proof.
  destruct (build_sides_from_extremes tilted (P (-3) 4) (dec (-24) 10, dec 32 10))
    as [min_x [max_x [max_b H]]].
  cbv zeta in H. destruct H as [Hb [_ [_ [_ [H1 [H2 H3]]]]]].
  exists min_x, max_x, max_b.
  split; [exact Hb|]. split; [|split].
  - apply H1. eexists. split; [apply in_map; left; reflexivity|].
    vm_compute. reflexivity.
  - apply H2. eexists. split; [apply in_map; left; reflexivity|].
    vm_compute. reflexivity.
  - apply H3. eexists. split; [apply in_map; left; reflexivity|].
    vm_compute. reflexivity.
Defined.

(** C3 as stated fails: on the axis-aligned [rect20] the first hull edge,
    (0,0)-(4,0), is horizontal; every projection has a NaN x-coordinate, and
    [l2] is built at the sentinel [x = 1e9], not at the least projection of
    an input point. *)
Lemma sides_at_sentinel_not_at_projection :
  lower_hull rect20 = [P 0 0; P 4 0; P 4 3] /\
  l2 (build rect20 (P 0 0) (P 4 0))
  = make_line (big, eval (make_line_pts (P 0 0) (P 4 0)) big)
              (div minus_one (fst (make_line_pts (P 0 0) (P 4 0)))) /\
  ~ (exists min_x,
        least_of min_x
          (map (proj_x (make_line_pts (P 0 0) (P 4 0))
                       (div minus_one (fst (make_line_pts (P 0 0) (P 4 0)))))
               rect20) /\
        l2 (build rect20 (P 0 0) (P 4 0))
        = make_line (min_x, eval (make_line_pts (P 0 0) (P 4 0)) min_x)
                    (div minus_one (fst (make_line_pts (P 0 0) (P 4 0))))).
Proof.
  split; [vm_compute; reflexivity|]. split; [vm_compute; reflexivity|].
  intros [min_x [[Hin _] H]].
  vm_compute in Hin.
  repeat (destruct Hin as [<-|Hin]; [vm_compute in H; discriminate H|]).
  exact Hin.
Qed.


(** * The axis-aligned fallback *)

Lemma in_range_bounds (x : T) :
  in_range x = true -> leb minus_big x = true /\ leb x big = true.
Proof.
  unfold in_range. rewrite !andb_true_iff. tauto.
Qed.

(** The four extremes the fallback multiplies. *)
Lemma fallback_extremes (pts : list pt) :
  exists min_x max_x min_y max_y,
    fallback pts = mul (sub max_x min_x) (sub max_y min_y) /\
    least_of min_x (big :: map fst pts) /\
    greatest_of max_x (minus_big :: map fst pts) /\
    least_of min_y (big :: map snd pts) /\
    greatest_of max_y (minus_big :: map snd pts) /\
    ((exists p, In p pts /\ pt_in_range p = true) ->
     least_of min_x (map fst pts) /\ greatest_of max_x (map fst pts) /\
     least_of min_y (map snd pts) /\ greatest_of max_y (map snd pts)).
Proof.
  exists (min_xs pts), (max_xs pts), (min_ys pts), (max_ys pts).
  assert (Hmx := fold_min_least (@fst T T) pts big).
  assert (HMx := fold_max_greatest (@fst T T) pts minus_big).
  assert (Hmy := fold_min_least (@snd T T) pts big).
  assert (HMy := fold_max_greatest (@snd T T) pts minus_big).
  fold (min_xs pts) in Hmx. fold (max_xs pts) in HMx.
  fold (min_ys pts) in Hmy. fold (max_ys pts) in HMy.
  split; [unfold fallback; apply mul_comm|].
  split; [exact Hmx|]. split; [exact HMx|].
  split; [exact Hmy|]. split; [exact HMy|].
  intros [p [Hp Hr]]. unfold pt_in_range in Hr.
  apply andb_true_iff in Hr. destruct Hr as [Hx Hy].
  apply in_range_bounds in Hx, Hy.
  split; [|split; [|split]].
  - apply (least_without_sentinel _ _ Hmx). exists (fst p).
    split; [now apply in_map | tauto].
  - apply (greatest_without_sentinel _ _ HMx). exists (fst p).
    split; [now apply in_map | tauto].
  - apply (least_without_sentinel _ _ Hmy). exists (snd p).
    split; [now apply in_map | tauto].
  - apply (greatest_without_sentinel _ _ HMy). exists (snd p).
    split; [now apply in_map | tauto].
Qed.

(** The running minimum of values between [lo] and [hi], [lo] among them,
    is [lo]; their running maximum is [hi] when [hi] is among them. *)
Lemma least_is_bound (lo hi v : T) (xs : list T) :
  least_of v (big :: xs) -> leb lo big = true -> ltb lo hi = true ->
  In lo xs -> (forall x, In x xs -> within lo hi x) -> v = lo.
Proof.
  intros Hv Hbig Hlt Hlo Hall.
  destruct (least_without_sentinel v xs Hv) as [Hin Hlow];
    [exists lo; split; assumption|].
  pose proof (Hlow lo Hlo) as Hb.
  destruct (Hall v Hin) as [E|[E|[E _]]]; [exact E|subst v|]; congruence.
Qed.

Lemma greatest_is_bound (lo hi v : T) (xs : list T) :
  greatest_of v (minus_big :: xs) -> leb minus_big hi = true ->
  ltb lo hi = true ->
  In hi xs -> (forall x, In x xs -> within lo hi x) -> v = hi.
Proof.
  intros Hv Hbig Hlt Hhi Hall.
  destruct (greatest_without_sentinel v xs Hv) as [Hin Hup];
    [exists hi; split; assumption|].
  pose proof (Hup hi Hhi) as Hb.
  destruct (Hall v Hin) as [E|[E|[_ E]]]; [subst v|exact E|]; congruence.
Qed.

Lemma on_rectangle_within (x0 x1 y0 y1 : T) (p : pt) :
  on_rectangle x0 x1 y0 y1 p ->
  within x0 x1 (fst p) /\ within y0 y1 (snd p).
Proof.
  unfold on_rectangle, within.
  intros [[[E|E] H]|[[E|E] H]]; split; auto.
Qed.

(** The bounding box of boundary samples that reach all four sides of an
    axis-aligned rectangle within the sentinels is the rectangle. *)
Lemma fallback_on_rectangle (pts : list pt) (x0 x1 y0 y1 : T) :
  in_range x0 = true -> in_range x1 = true ->
  in_range y0 = true -> in_range y1 = true ->
  ltb x0 x1 = true -> ltb y0 y1 = true ->
  (forall p, In p pts -> on_rectangle x0 x1 y0 y1 p) ->
  on_every_side x0 x1 y0 y1 pts ->
  min_xs pts = x0 /\ max_xs pts = x1 /\
  min_ys pts = y0 /\ max_ys pts = y1.
Proof.
  intros Hx0 Hx1 Hy0 Hy1 Hx Hy Hon
         ((pl & Hpl & El) & (pr & Hpr & Er) & (pb & Hpb & Eb) & (pt' & Hpt & Et)).
  apply in_range_bounds in Hx0, Hx1, Hy0, Hy1.
  assert (Hwx : forall x, In x (map fst pts) -> within x0 x1 x).
  { intros x Hin. apply in_map_iff in Hin. destruct Hin as (p & <- & Hp).
    exact (proj1 (on_rectangle_within _ _ _ _ _ (Hon p Hp))). }
  assert (Hwy : forall y, In y (map snd pts) -> within y0 y1 y).
  { intros y Hin. apply in_map_iff in Hin. destruct Hin as (p & <- & Hp).
    exact (proj2 (on_rectangle_within _ _ _ _ _ (Hon p Hp))). }
  split; [|split; [|split]].
  - apply (least_is_bound x0 x1 _ (map fst pts));
      [apply (fold_min_least (@fst T T))|tauto|exact Hx| |exact Hwx].
    rewrite <- El. now apply in_map.
  - apply (greatest_is_bound x0 x1 _ (map fst pts));
      [apply (fold_max_greatest (@fst T T))|tauto|exact Hx| |exact Hwx].
    rewrite <- Er. now apply in_map.
  - apply (least_is_bound y0 y1 _ (map snd pts));
      [apply (fold_min_least (@snd T T))|tauto|exact Hy| |exact Hwy].
    rewrite <- Eb. now apply in_map.
  - apply (greatest_is_bound y0 y1 _ (map snd pts));
      [apply (fold_max_greatest (@snd T T))|tauto|exact Hy| |exact Hwy].
    rewrite <- Et. now apply in_map.
Qed.

(** Membership of a given point in the boundary of a given rectangle, by
    evaluation. *)
Ltac within_by_evaluation :=
  first [ left; vm_compute; reflexivity
        | right; left; vm_compute; reflexivity
        | right; right; split; vm_compute; reflexivity ].

Ltac on_rectangle_by_evaluation :=
  first [ left; split;
          [ first [left; vm_compute; reflexivity
                  |right; vm_compute; reflexivity]
          | within_by_evaluation ]
        | right; split;
          [ first [left; vm_compute; reflexivity
                  |right; vm_compute; reflexivity]
          | within_by_evaluation ] ].

Ltac all_on_rectangle :=
  let p := fresh "p" in
  let Hp := fresh "Hp" in
  intros p Hp; cbv delta [rect20 rect16 rect_open mid16] in Hp;
  cbn [In] in Hp;
  repeat (destruct Hp as [<-|Hp]; [on_rectangle_by_evaluation|]);
  destruct Hp.

(** C7 (amended).  The fallback reports exactly
    [(max_x - min_x) * (max_y - min_y)], where [min_x] and [min_y] are the
    least of 1e9 and the x-coordinates (y-coordinates) of the stored points,
    and [max_x], [max_y] the greatest of -1e9 and them; as soon as one point
    has coordinates of magnitude at most 1e9 they are the extremes over the
    points themselves.  For boundary samples of an axis-aligned rectangle
    with corners of magnitude at most 1e9, each of whose four sides carries
    a sample, the extremes are the coordinates of the sides and the value is
    the rectangle's area as [long double] computes it:
    [(x1 - x0) * (y1 - y0)]; for the twenty samples of the rectangle (0,0),
    (4,0), (4,3), (0,3) both passes accept nothing and the fallback prints
    12. *)
Theorem fallback_is_bounding_box :
  (forall pts, exists min_x max_x min_y max_y,
      fallback pts = mul (sub max_x min_x) (sub max_y min_y) /\
      least_of min_x (big :: map fst pts) /\
      greatest_of max_x (minus_big :: map fst pts) /\
      least_of min_y (big :: map snd pts) /\
      greatest_of max_y (minus_big :: map snd pts) /\
      ((exists p, In p pts /\ pt_in_range p = true) ->
       least_of min_x (map fst pts) /\ greatest_of max_x (map fst pts) /\
       least_of min_y (map snd pts) /\ greatest_of max_y (map snd pts))) /\
  (forall pts x0 x1 y0 y1,
      in_range x0 = true -> in_range x1 = true ->
      in_range y0 = true -> in_range y1 = true ->
      ltb x0 x1 = true -> ltb y0 y1 = true ->
      (forall p, In p pts -> on_rectangle x0 x1 y0 y1 p) ->
      on_every_side x0 x1 y0 y1 pts ->
      min_xs pts = x0 /\ max_xs pts = x1 /\
      min_ys pts = y0 /\ max_ys pts = y1 /\
      fallback pts = mul (sub x1 x0) (sub y1 y0)) /\
  passes 2 rect20 = (None, rect20) /\
  solve rect20 = [of_Z 12].
Proof.
  split; [exact fallback_extremes|].
  split; [|split; vm_compute; reflexivity].
  intros pts x0 x1 y0 y1 Hx0 Hx1 Hy0 Hy1 Hx Hy Hon Hside.
  destruct (fallback_on_rectangle pts x0 x1 y0 y1 Hx0 Hx1 Hy0 Hy1 Hx Hy
              Hon Hside) as (E1 & E2 & E3 & E4).
  split; [exact E1|]. split; [exact E2|]. split; [exact E3|].
  split; [exact E4|].
  unfold fallback. rewrite E1, E2, E3, E4. apply mul_comm.
Qed.

(** The extremes of [tilted], and the twenty samples of the rectangle
    (0,0), (4,0), (4,3), (0,3). *)
Lemma fallback_is_bounding_box_witness :
  (exists min_x max_x min_y max_y,
     fallback tilted = mul (sub max_x min_x) (sub max_y min_y) /\
     least_of min_x (map fst tilted) /\ greatest_of max_x (map fst tilted) /\
     least_of min_y (map snd tilted) /\
     greatest_of max_y (map snd tilted)) /\
  ((forall p, In p rect20 -> on_rectangle (of_Z 0) (of_Z 4) (of_Z 0) (of_Z 3) p) /\
   on_every_side (of_Z 0) (of_Z 4) (of_Z 0) (of_Z 3) rect20 /\
   fallback rect20 = mul (sub (of_Z 4) (of_Z 0)) (sub (of_Z 3) (of_Z 0)) /\
   mul (sub (of_Z 4) (of_Z 0)) (sub (of_Z 3) (of_Z 0)) = of_Z 12).
Proof.
  split.
  - destruct (proj1 fallback_is_bounding_box tilted)
      as [min_x [max_x [min_y [max_y [Hf [_ [_ [_ [_ H]]]]]]]]].
    exists min_x, max_x, min_y, max_y. split; [exact Hf|].
    apply H. exists (P 0 0). split; [left; reflexivity|].
    vm_compute. reflexivity.
  - assert (Hon : forall p, In p rect20 ->
                    on_rectangle (of_Z 0) (of_Z 4) (of_Z 0) (of_Z 3) p)
      by all_on_rectangle.
    assert (Hside : on_every_side (of_Z 0) (of_Z 4) (of_Z 0) (of_Z 3) rect20).
    { split; [|split; [|split]].
      - exists (dec 0 10, dec 0 10). split; [now left|vm_compute; reflexivity].
      - exists (dec 40 10, dec 0 10).
        split; [do 5 right; now left|vm_compute; reflexivity].
      - exists (dec 0 10, dec 0 10). split; [now left|vm_compute; reflexivity].
      - exists (dec 40 10, dec 30 10).
        split; [do 10 right; now left|vm_compute; reflexivity]. }
    split; [exact Hon|]. split; [exact Hside|].
    split; [|vm_compute; reflexivity].
    assert (R0 : in_range (of_Z 0) = true) by (vm_compute; reflexivity).
    assert (R3 : in_range (of_Z 3) = true) by (vm_compute; reflexivity).
    assert (R4 : in_range (of_Z 4) = true) by (vm_compute; reflexivity).
    assert (L4 : ltb (of_Z 0) (of_Z 4) = true) by (vm_compute; reflexivity).
    assert (L3 : ltb (of_Z 0) (of_Z 3) = true) by (vm_compute; reflexivity).
    exact (proj2 (proj2 (proj2 (proj2
             (proj1 (proj2 fallback_is_bounding_box) rect20
                (of_Z 0) (of_Z 4) (of_Z 0) (of_Z 3)
                R0 R4 R0 R3 L4 L3 Hon Hside))))).
Defined.

Lemma forallb_In (A : Type) (f : A -> bool) (l : list A) :
  forallb f l = true -> forall x, In x l -> f x = true.
Proof. intros H x Hx. exact (proj1 (forallb_forall f l) H x Hx). Qed.

(** The fifteen points of [far_right] have x between 2e9 and 2e9 + 4 and y
    between 0 and 3, a bounding box of area 12, and the fallback prints
    3000000012: its [min_x] is the sentinel 1e9. *)
Lemma fallback_misses_far_points :
  least_of (of_Z 2000000000) (map fst far_right) /\
  greatest_of (of_Z 2000000004) (map fst far_right) /\
  least_of (of_Z 0) (map snd far_right) /\
  greatest_of (of_Z 3) (map snd far_right) /\
  mul (sub (of_Z 2000000004) (of_Z 2000000000)) (sub (of_Z 3) (of_Z 0))
  = of_Z 12 /\
  passes 2 far_right = (None, far_right) /\
  solve far_right = [of_Z 3000000012].
Proof.
  assert (Hlow : forall v xs,
             forallb (fun x => negb (ltb x v)) xs = true ->
             forall x, In x xs -> ltb x v = false).
  { intros v xs H x Hx. apply negb_true_iff.
    exact (forallb_In _ (fun x => negb (ltb x v)) _ H x Hx). }
  assert (Hup : forall v xs,
             forallb (fun x => negb (ltb v x)) xs = true ->
             forall x, In x xs -> ltb v x = false).
  { intros v xs H x Hx. apply negb_true_iff.
    exact (forallb_In _ (fun x => negb (ltb v x)) _ H x Hx). }
  split; [split; [vm_compute; tauto | apply Hlow; vm_compute; reflexivity]|].
  split; [split; [vm_compute; tauto | apply Hup; vm_compute; reflexivity]|].
  split; [split; [vm_compute; tauto | apply Hlow; vm_compute; reflexivity]|].
  split; [split; [vm_compute; tauto | apply Hup; vm_compute; reflexivity]|].
  split; [vm_compute; reflexivity|].
  split; vm_compute; reflexivity.
Qed.

(** The fifteen points of [rect_open] are boundary samples of the rectangle
    (0,0), (4,0), (4,3), (0,3), none on its right side: both passes accept
    nothing and the fallback prints 9.6, the area of their bounding box. *)
Lemma fallback_misses_empty_side :
  (forall p, In p rect_open ->
             on_rectangle (of_Z 0) (of_Z 4) (of_Z 0) (of_Z 3) p) /\
  passes 2 rect_open = (None, rect_open) /\
  solve rect_open = [dec 96 10] /\
  ltb (dec 96 10) (of_Z 12) = true.
Proof.
  split; [all_on_rectangle|]. split; [vm_compute; reflexivity|].
  split; vm_compute; reflexivity.
Qed.

(** C7 as stated fails twice over.  The extremes start from the sentinels:
    for the boundary samples [far_right], whose bounding box has area 12,
    the fallback prints 3000000012.  And the bounding box of boundary
    samples need not be the rectangle: for [rect_open] it prints 9.6, not
    12. *)
Lemma fallback_not_the_rectangle :
  (least_of (of_Z 2000000000) (map fst far_right) /\
   greatest_of (of_Z 2000000004) (map fst far_right) /\
   least_of (of_Z 0) (map snd far_right) /\
   greatest_of (of_Z 3) (map snd far_right) /\
   mul (sub (of_Z 2000000004) (of_Z 2000000000)) (sub (of_Z 3) (of_Z 0))
   = of_Z 12 /\
   passes 2 far_right = (None, far_right) /\
   solve far_right = [of_Z 3000000012]) /\
  ((forall p, In p rect_open ->
              on_rectangle (of_Z 0) (of_Z 4) (of_Z 0) (of_Z 3) p) /\
   passes 2 rect_open = (None, rect_open) /\
   solve rect_open = [dec 96 10] /\
   ltb (dec 96 10) (of_Z 12) = true).
Proof.
  split; [exact fallback_misses_far_points|exact fallback_misses_empty_side].
Qed.


(** * The reflection *)

Lemma reflect_pt_neg (p : pt) : valid_pt p = true -> reflect_pt p = neg_pt p.
Proof.
  unfold valid_pt, reflect_pt, neg_pt. intros H.
  apply andb_true_iff in H. destruct H as [Hx Hy].
  now rewrite !mul_minus_one.
Qed.

(** On stored values [x *= -1, y *= -1] is the rotation by 180 degrees. *)
Lemma reflect_rotate180 (pts : list pt) :
  valid_pts pts = true -> reflect pts = rotate180 pts.
Proof.
  unfold valid_pts, reflect, rotate180. intros H.
  apply map_ext_in. intros p Hp. apply reflect_pt_neg.
  exact (forallb_In _ _ _ H p Hp).
Qed.

Lemma neg_pt_involutive (p : pt) : neg_pt (neg_pt p) = p.
Proof.
  destruct p as [x y]. unfold neg_pt. cbn [fst snd].
  now rewrite !opp_involutive.
Qed.

Lemma rotate180_involutive (pts : list pt) : rotate180 (rotate180 pts) = pts.
Proof.
  unfold rotate180. rewrite map_map. rewrite <- (map_id pts) at 2.
  apply map_ext. exact neg_pt_involutive.
Qed.

Lemma valid_rotate180 (pts : list pt) :
  valid_pts (rotate180 pts) = valid_pts pts.
Proof.
  unfold valid_pts, rotate180. induction pts as [|p pts IH]; [reflexivity|].
  cbn [map forallb]. rewrite IH. f_equal.
  unfold valid_pt, neg_pt. cbn [fst snd]. now rewrite !valid_opp.
Qed.

(** Reflecting twice restores every stored point. *)
Lemma reflect_twice (pts : list pt) :
  valid_pts pts = true -> reflect (reflect pts) = pts.
Proof.
  intros H. rewrite (reflect_rotate180 pts H).
  rewrite reflect_rotate180 by (now rewrite valid_rotate180).
  apply rotate180_involutive.
Qed.

Lemma min_opp (m v : T) : min (SFopp m) (SFopp v) = SFopp (max m v).
Proof. unfold min, max. rewrite ltb_opp. now destruct (ltb m v). Qed.

Lemma max_opp (m v : T) : max (SFopp m) (SFopp v) = SFopp (min m v).
Proof. unfold min, max. rewrite ltb_opp. now destruct (ltb v m). Qed.

Lemma fold_min_rotate180 (f : pt -> T) (pts : list pt) (m : T) :
  (forall p, f (neg_pt p) = SFopp (f p)) ->
  fold_left (fun m p => min m (f p)) (rotate180 pts) (SFopp m)
  = SFopp (fold_left (fun m p => max m (f p)) pts m).
Proof.
  intros Hf. revert m. induction pts as [|p pts IH]; intros m; [reflexivity|].
  cbn [rotate180 map fold_left]. rewrite Hf, min_opp. apply IH.
Qed.

Lemma fold_max_rotate180 (f : pt -> T) (pts : list pt) (m : T) :
  (forall p, f (neg_pt p) = SFopp (f p)) ->
  fold_left (fun m p => max m (f p)) (rotate180 pts) (SFopp m)
  = SFopp (fold_left (fun m p => min m (f p)) pts m).
Proof.
  intros Hf. revert m. induction pts as [|p pts IH]; intros m; [reflexivity|].
  cbn [rotate180 map fold_left]. rewrite Hf, max_opp. apply IH.
Qed.

Lemma big_opp : big = SFopp minus_big.
Proof. reflexivity. Qed.

Lemma minus_big_opp : minus_big = SFopp big.
Proof. reflexivity. Qed.

(** The rotation swaps and negates the extremes, and the sentinels with
    them: the bounding-box product is the same, bit for bit. *)
Lemma fallback_rotate180 (pts : list pt) :
  fallback (rotate180 pts) = fallback pts.
Proof.
  unfold fallback, min_xs, max_xs, min_ys, max_ys.
  rewrite big_opp at 1 2.
  rewrite !(fold_min_rotate180 _ pts minus_big) by reflexivity.
  rewrite minus_big_opp at 1 2.
  rewrite !(fold_max_rotate180 _ pts big) by reflexivity.
  now rewrite !sub_opp_opp.
Qed.

Lemma fold_left_map (A B C : Type) (g : C -> B -> C) (h : A -> B)
      (l : list A) (acc : C) :
  fold_left g (map h l) acc = fold_left (fun acc x => g acc (h x)) l acc.
Proof.
  revert acc. induction l as [|x l IH]; intros acc; [reflexivity|].
  cbn [map fold_left]. apply IH.
Qed.

Lemma cross_neg (a b : pt) : cross (neg_pt a) (neg_pt b) = cross a b.
Proof. unfold cross, neg_pt. cbn [fst snd]. now rewrite !mul_opp_opp. Qed.

Lemma combine_map_both (A B : Type) (h : A -> B) (l l' : list A) :
  combine (map h l) (map h l') = map (fun pq => (h (fst pq), h (snd pq))) (combine l l').
Proof.
  revert l'. induction l as [|x l IH]; intros [|y l']; try reflexivity.
  cbn [map combine fst snd]. now rewrite IH.
Qed.

Lemma fold_left_pointwise (A C : Type) (g g' : C -> A -> C) (l : list A)
      (acc : C) :
  (forall acc x, g acc x = g' acc x) ->
  fold_left g l acc = fold_left g' l acc.
Proof.
  intros H. revert acc. induction l as [|x l IH]; intros acc; [reflexivity|].
  cbn [fold_left]. rewrite H. apply IH.
Qed.

Lemma shoelace_rotate180 (locs : list pt) :
  shoelace_sum (rotate180 locs) = shoelace_sum locs.
Proof.
  unfold shoelace_sum, rotate180.
  replace (tl (map neg_pt locs) ++ firstn 1 (map neg_pt locs))
    with (map neg_pt (tl locs ++ firstn 1 locs)).
  - rewrite combine_map_both, fold_left_map.
    apply fold_left_pointwise. intros res pq. cbn [fst snd].
    now rewrite cross_neg.
  - rewrite map_app. destruct locs; reflexivity.
Qed.

(** Negating every vertex leaves the area unchanged, bit for bit. *)
Lemma polygon_area_rotate180 (locs : list pt) :
  polygon_area (rotate180 locs) = polygon_area locs.
Proof. now rewrite !polygon_area_shoelace, shoelace_rotate180. Qed.

(** The outer loop, unrolled. *)
Lemma solve_unrolled (pts : list pt) :
  solve pts =
  match first_pass pts with
  | Some res => [res]
  | None =>
      match first_pass (reflect pts) with
      | Some res => [res]
      | None => [fallback (reflect (reflect pts))]
      end
  end.
Proof.
  unfold solve, first_pass. cbn [passes].
  destruct (try_edges pts (lower_hull pts)); [reflexivity|].
  destruct (try_edges (reflect pts) (lower_hull (reflect pts))); reflexivity.
Qed.

Lemma passes_two (pts : list pt) :
  passes 2 pts =
  match first_pass pts with
  | Some res => (Some res, pts)
  | None =>
      match first_pass (reflect pts) with
      | Some res => (Some res, reflect pts)
      | None => (None, reflect (reflect pts))
      end
  end.
Proof. reflexivity. Qed.

(** C5.  When the first pass accepts no candidate, every stored point is
    multiplied by -1 in both coordinates, which negates it, and the same
    pass is run once more: the second pass is the first pass on the point
    set rotated by 180 degrees, and what it prints is the answer; failing
    that, the fallback follows.  Negating the vertices leaves
    [polygon_area] unchanged. *)
Theorem second_pass_on_rotated_points (pts : list pt) :
  valid_pts pts = true ->
  first_pass pts = None ->
  reflect pts = rotate180 pts /\
  passes 2 pts = passes 1 (rotate180 pts) /\
  solve pts = match first_pass (rotate180 pts) with
              | Some res => [res]
              | None => [fallback pts]
              end /\
  (forall locs, polygon_area (rotate180 locs) = polygon_area locs) /\
  (forall locs, valid_pts locs = true ->
                polygon_area (reflect locs) = polygon_area locs).
Proof.
  intros Hv H1.
  assert (Hr := reflect_rotate180 pts Hv).
  split; [exact Hr|]. split; [|split; [|split]].
  - cbn [passes]. fold (first_pass pts). rewrite H1, Hr. reflexivity.
  - rewrite solve_unrolled, H1, (reflect_twice pts Hv), Hr. reflexivity.
  - exact polygon_area_rotate180.
  - intros locs Hl. rewrite (reflect_rotate180 locs Hl).
    apply polygon_area_rotate180.
Qed.

Lemma second_pass_on_rotated_points_witness :
  reflect rect20 = rotate180 rect20 /\
  passes 2 rect20 = passes 1 (rotate180 rect20) /\
  solve rect20 = match first_pass (rotate180 rect20) with
                 | Some res => [res]
                 | None => [fallback rect20]
                 end /\
  (forall locs, polygon_area (rotate180 locs) = polygon_area locs) /\
  (forall locs, valid_pts locs = true ->
                polygon_area (reflect locs) = polygon_area locs).
Proof.
  apply (second_pass_on_rotated_points rect20); vm_compute; reflexivity.
Defined.

(** C10.  When control reaches the fallback the reflection has been applied
    exactly twice; every stored point is again the point that was read, so
    the bounding-box product printed is that of the input; and one
    reflection alone leaves the bounding-box product unchanged. *)
Theorem fallback_sees_the_input (pts pts' : list pt) :
  valid_pts pts = true ->
  passes 2 pts = (None, pts') ->
  pts' = reflect (reflect pts) /\
  pts' = pts /\
  solve pts = [fallback pts] /\
  fallback (reflect pts) = fallback pts.
Proof.
  intros Hv H. rewrite passes_two in H.
  assert (Hsolve := solve_unrolled pts).
  destruct (first_pass pts); [discriminate H|].
  destruct (first_pass (reflect pts)); [discriminate H|].
  injection H as <-.
  rewrite (reflect_twice pts Hv) in *.
  repeat split; try assumption.
  rewrite (reflect_rotate180 pts Hv). apply fallback_rotate180.
Qed.

Lemma fallback_sees_the_input_witness :
  rect20 = reflect (reflect rect20) /\
  rect20 = rect20 /\
  solve rect20 = [fallback rect20] /\
  fallback (reflect rect20) = fallback rect20.
Proof.
  apply (fallback_sees_the_input rect20 rect20); vm_compute; reflexivity.
Defined.

(** C8 (amended).  When neither pass accepts a candidate the program prints
    the value of the fallback on the stored points, which are the input
    points again: [(max_x - min_x) * (max_y - min_y)], where [min_x],
    [min_y] are the least of the sentinel 1e9 and the x-coordinates
    (y-coordinates) of the input points and [max_x], [max_y] the greatest of
    the sentinel -1e9 and them.  That is the bounding-box product of the
    input points when some point has coordinates of magnitude at most 1e9.
    The program has no failure path. *)
Theorem both_passes_fail_prints_bounding_box (pts : list pt) :
  first_pass pts = None ->
  first_pass (reflect pts) = None ->
  solve pts = [fallback (reflect (reflect pts))] /\
  (valid_pts pts = true ->
   solve pts = [fallback pts] /\
   exists min_x max_x min_y max_y,
     solve pts = [mul (sub max_x min_x) (sub max_y min_y)] /\
     least_of min_x (big :: map fst pts) /\
     greatest_of max_x (minus_big :: map fst pts) /\
     least_of min_y (big :: map snd pts) /\
     greatest_of max_y (minus_big :: map snd pts) /\
     ((exists p, In p pts /\ pt_in_range p = true) ->
      least_of min_x (map fst pts) /\ greatest_of max_x (map fst pts) /\
      least_of min_y (map snd pts) /\ greatest_of max_y (map snd pts))).
Proof.
  intros H1 H2. rewrite solve_unrolled, H1, H2.
  split; [reflexivity|]. intros Hv. rewrite (reflect_twice pts Hv).
  split; [reflexivity|].
  destruct (fallback_extremes pts)
    as (min_x & max_x & min_y & max_y & Hf & Hrest).
  exists min_x, max_x, min_y, max_y. rewrite Hf.
  split; [reflexivity|exact Hrest].
Qed.

(** The fifteen points of [parabola], which lie within the sentinels. *)
Lemma both_passes_fail_prints_bounding_box_witness :
  first_pass parabola = None /\
  first_pass (reflect parabola) = None /\
  solve parabola = [fallback parabola] /\
  exists min_x max_x min_y max_y,
    solve parabola = [mul (sub max_x min_x) (sub max_y min_y)] /\
    least_of min_x (map fst parabola) /\
    greatest_of max_x (map fst parabola) /\
    least_of min_y (map snd parabola) /\
    greatest_of max_y (map snd parabola).
Proof.
  assert (H1 : first_pass parabola = None) by (vm_compute; reflexivity).
  assert (H2 : first_pass (reflect parabola) = None)
    by (vm_compute; reflexivity).
  assert (Hv : valid_pts parabola = true) by (vm_compute; reflexivity).
  destruct (both_passes_fail_prints_bounding_box parabola H1 H2) as [_ H].
  destruct (H Hv) as (Hs & min_x & max_x & min_y & max_y & Hm & _ & _ & _ & _ & Hin).
  split; [exact H1|]. split; [exact H2|]. split; [exact Hs|].
  exists min_x, max_x, min_y, max_y. split; [exact Hm|].
  apply Hin. exists (P 0 0). split; [|vm_compute; reflexivity].
  unfold parabola. cbn [map In]. do 7 right. left. reflexivity.
Defined.

(** C8 as stated fails: the fifteen points of [parabola] lie on no
    rectangle, both passes accept nothing, and the program prints 686, the
    area of their bounding box, as its answer. *)
Lemma no_candidate_yet_area_printed :
  first_pass parabola = None /\
  first_pass (reflect parabola) = None /\
  solve parabola = [of_Z 686] /\
  solve parabola <> [].
Proof.
  split; [vm_compute; reflexivity|].
  split; [vm_compute; reflexivity|].
  split; [vm_compute; reflexivity|].
  vm_compute. discriminate.
Qed.

(** * Absence of overflow *)

Lemma digits2_pos_bounds (p : positive) :
  2 ^ (Zpos (digits2_pos p) - 1) <= Zpos p < 2 ^ Zpos (digits2_pos p).
Proof.
  induction p as [p IH|p IH|]; cbn [digits2_pos].
  - rewrite Pos2Z.inj_succ, Z.pow_succ_r by lia.
    replace (Z.succ (Z.pos (digits2_pos p)) - 1) with (Z.succ (Z.pos (digits2_pos p) - 1)) by lia.
    rewrite Z.pow_succ_r by lia. lia.
  - rewrite Pos2Z.inj_succ, Z.pow_succ_r by lia.
    replace (Z.succ (Z.pos (digits2_pos p)) - 1) with (Z.succ (Z.pos (digits2_pos p) - 1)) by lia.
    rewrite Z.pow_succ_r by lia. lia.
  - simpl. lia.
Qed.

Lemma Zdigits2_nonneg (m : Z) : 0 <= Zdigits2 m.
Proof. destruct m; simpl; lia. Qed.

Lemma Zdigits2_le (m k : Z) : 0 <= m < 2 ^ k -> 0 <= k -> Zdigits2 m <= k.
Proof.
  intros [Hm Hlt] Hk. destruct m as [|p|p]; [exact Hk| |lia].
  cbn [Zdigits2]. destruct (digits2_pos_bounds p) as [Hlo _].
  destruct (Z_le_gt_dec (Zpos (digits2_pos p)) k) as [H|H]; [exact H|].
  exfalso. assert (2 ^ k <= 2 ^ (Zpos (digits2_pos p) - 1)).
  { apply Z.pow_le_mono_r; lia. }
  lia.
Qed.

Lemma Zdigits2_lt_pow (m : Z) : 0 <= m -> m < 2 ^ Zdigits2 m.
Proof.
  intros Hm. destruct m as [|p|p]; [simpl; lia| |lia].
  apply digits2_pos_bounds.
Qed.

Lemma shr_1_div2 (r : shr_record) :
  0 <= shr_m r -> shr_m (shr_1 r) = shr_m r / 2.
Proof.
  destruct r as [m r s]. cbn [shr_m]. intros Hm.
  destruct m as [|[p|p|]|p]; cbn [shr_1 shr_m]; try lia; try reflexivity.
  - rewrite Pos2Z.inj_xI. apply (Z.div_unique _ _ _ 1); lia.
  - rewrite Pos2Z.inj_xO. apply (Z.div_unique _ _ _ 0); lia.
Qed.

Lemma iter_shr_div (p : positive) (r : shr_record) :
  0 <= shr_m r -> shr_m (iter_pos shr_1 p r) = shr_m r / 2 ^ Zpos p.
Proof.
  revert r. induction p as [p IH|p IH|]; intros r Hr; cbn [iter_pos].
  - assert (H1 : 0 <= shr_m (shr_1 r)).
    { rewrite shr_1_div2 by exact Hr. apply Z.div_pos; lia. }
    assert (H2 : 0 <= shr_m (iter_pos shr_1 p (shr_1 r))).
    { rewrite IH by exact H1. apply Z.div_pos; [exact H1|]. apply Z.pow_pos_nonneg; lia. }
    rewrite IH by exact H2. rewrite IH by exact H1. rewrite shr_1_div2 by exact Hr.
    rewrite !Z.div_div by (try apply Z.pow_pos_nonneg; lia).
    f_equal. rewrite <- Z.pow_add_r, <- Z.pow_succ_r by lia. f_equal. lia.
  - assert (H2 : 0 <= shr_m (iter_pos shr_1 p r)).
    { rewrite IH by exact Hr. apply Z.div_pos; [exact Hr|]. apply Z.pow_pos_nonneg; lia. }
    rewrite IH by exact H2. rewrite IH by exact Hr.
    rewrite !Z.div_div by (try apply Z.pow_pos_nonneg; lia).
    f_equal. rewrite <- Z.pow_add_r by lia. f_equal. lia.
  - rewrite shr_1_div2 by exact Hr. reflexivity.
Qed.

Lemma round_nearest_even_bounds (m : Z) (l : location) :
  m <= round_nearest_even m l <= m + 1.
Proof.
  unfold round_nearest_even. destruct l as [|[| |]]; try lia.
  destruct (Z.even m); lia.
Qed.

Lemma Zdigits2_succ (m m' : Z) :
  0 <= m -> m <= m' <= m + 1 -> Zdigits2 m' <= Zdigits2 m + 1.
Proof.
  intros Hm Hm'. pose proof (Zdigits2_lt_pow m Hm) as Hlt.
  pose proof (Zdigits2_nonneg m) as Hd.
  apply Zdigits2_le; [|lia].
  rewrite Z.pow_add_r by lia. lia.
Qed.

(** What the right shift to the format's exponent does to a nonnegative
    significand. *)
Lemma shr_fexp_spec (m e : Z) (l : location) :
  0 <= m ->
  0 <= shr_m (fst (shr_fexp prec emax m e l)) /\
  snd (shr_fexp prec emax m e l) = Z.max e (fexp prec emax (Zdigits2 m + e)) /\
  Zdigits2 (shr_m (fst (shr_fexp prec emax m e l)))
    + snd (shr_fexp prec emax m e l)
  <= Z.max (Zdigits2 m + e) (snd (shr_fexp prec emax m e l)).
Proof.
  intros Hm. unfold shr_fexp, shr.
  assert (Hrec : shr_m (shr_record_of_loc m l) = m)
    by (destruct l as [|[| |]]; reflexivity).
  destruct (fexp prec emax (Zdigits2 m + e) - e) as [|n|n] eqn:E;
    cbn [fst snd]; rewrite ?Hrec.
  - repeat split; lia.
  - rewrite iter_shr_div by (rewrite Hrec; exact Hm). rewrite Hrec.
    assert (Hpow : 0 < 2 ^ Z.pos n) by (apply Z.pow_pos_nonneg; lia).
    split; [apply Z.div_pos; lia|]. split; [lia|].
    pose proof (Zdigits2_lt_pow m Hm) as Hlt.
    pose proof (Zdigits2_nonneg m) as Hd.
    destruct (Z_le_gt_dec (Z.pos n) (Zdigits2 m)) as [Hn|Hn].
    + assert (Zdigits2 (m / 2 ^ Z.pos n) <= Zdigits2 m - Z.pos n); [|lia].
      apply Zdigits2_le; [|lia]. split; [apply Z.div_pos; lia|].
      apply Z.div_lt_upper_bound; [lia|].
      rewrite <- Z.pow_add_r by lia.
      replace (Z.pos n + (Zdigits2 m - Z.pos n)) with (Zdigits2 m) by lia.
      exact Hlt.
    + rewrite Z.div_small; [simpl; lia|]. split; [lia|].
      apply Z.lt_le_trans with (2 ^ Zdigits2 m); [exact Hlt|].
      apply Z.pow_le_mono_r; lia.
  - repeat split; lia.
Qed.

(** Rounding a nonnegative significand never yields NaN, and yields a
    finite value when the magnitude stays below [2^(emax - 1)]. *)
Lemma binary_round_aux_number (s : bool) (m e : Z) (l : location) :
  0 <= m ->
  isnan (binary_round_aux prec emax s m e l) = false /\
  (e <= emax - prec -> Zdigits2 m + e + 1 <= emax ->
   finite (binary_round_aux prec emax s m e l) = true).
Proof.
  intros Hm. unfold binary_round_aux.
  destruct (shr_fexp_spec m e l Hm) as [H1 [H2 H3]].
  destruct (shr_fexp prec emax m e l) as [mrs' e']. cbn [fst snd] in H1, H2, H3.
  pose proof (round_nearest_even_bounds (shr_m mrs') (loc_of_shr_record mrs')) as Hr.
  set (m2 := round_nearest_even (shr_m mrs') (loc_of_shr_record mrs')) in *.
  assert (Hm2 : 0 <= m2) by lia.
  pose proof (Zdigits2_succ (shr_m mrs') m2 H1 Hr) as Hd2.
  destruct (shr_fexp_spec m2 e' loc_Exact Hm2) as [K1 [K2 K3]].
  destruct (shr_fexp prec emax m2 e' loc_Exact) as [mrs'' e''].
  cbn [fst snd] in K1, K2, K3.
  destruct (shr_m mrs'') as [|p|p]; [split; reflexivity| |lia].
  split; [destruct (e'' <=? emax - prec); reflexivity|].
  intros He Hd.
  replace (e'' <=? emax - prec) with true; [reflexivity|].
  symmetry. apply Z.leb_le.
  unfold fexp, emin, prec, emax in *. lia.
Qed.

Lemma pos_iter_xO (m d : positive) :
  Zpos (Pos.iter xO m d) = Zpos m * 2 ^ Zpos d.
Proof.
  induction d as [|d IH] using Pos.peano_ind.
  - cbn [Pos.iter]. lia.
  - rewrite Pos.iter_succ, Pos2Z.inj_xO, IH, Pos2Z.inj_succ.
    rewrite Z.pow_succ_r by lia. lia.
Qed.

Lemma shl_align_spec (mx : positive) (ex ex' : Z) :
  snd (shl_align mx ex ex') = Z.min ex ex' /\
  Zpos (fst (shl_align mx ex ex'))
  = Zpos mx * 2 ^ (ex - snd (shl_align mx ex ex')).
Proof.
  unfold shl_align. destruct (ex' - ex) as [|d|d] eqn:E; cbn [fst snd].
  - split; [lia|]. rewrite Z.sub_diag. lia.
  - split; [lia|]. rewrite Z.sub_diag. lia.
  - split; [lia|]. rewrite pos_iter_xO. f_equal. f_equal. lia.
Qed.

Lemma Zdigits2_abs (m : Z) : Zdigits2 (Z.abs m) = Zdigits2 m.
Proof. destruct m; reflexivity. Qed.

(** A significand below [2^(k - e)] has at most [k - e] digits. *)
Lemma Zdigits2_scaled (m : positive) (d e k : Z) :
  0 <= d -> Zpos (digits2_pos m) + e + d <= k ->
  Zpos m * 2 ^ d < 2 ^ (k - e).
Proof.
  intros Hd Hk. destruct (digits2_pos_bounds m) as [_ Hlt].
  apply Z.lt_le_trans with (2 ^ Zpos (digits2_pos m) * 2 ^ d).
  - apply Z.mul_lt_mono_pos_r; [apply Z.pow_pos_nonneg; lia | exact Hlt].
  - rewrite <- Z.pow_add_r by lia. apply Z.pow_le_mono_r; lia.
Qed.

Lemma binary_round_finite (s : bool) (mx : positive) (ex : Z) :
  Zpos (digits2_pos mx) + ex + 1 <= emax ->
  finite (binary_round prec emax s mx ex) = true.
Proof.
  intros H. unfold binary_round.
  destruct (shl_align_spec mx ex (fexp prec emax (Zpos (digits2_pos mx) + ex)))
    as [He Hm].
  destruct (shl_align mx ex (fexp prec emax (Zpos (digits2_pos mx) + ex)))
    as [mz ez]. cbn [fst snd] in He, Hm.
  apply binary_round_aux_number; [lia| |].
  - unfold fexp, emin, prec, emax in *. lia.
  - assert (Zdigits2 (Zpos mz) <= Zpos (digits2_pos mx) + ex - ez); [|lia].
    apply Zdigits2_le.
    + split; [lia|]. rewrite Hm.
      apply (Zdigits2_scaled mx (ex - ez) ez (Zpos (digits2_pos mx) + ex)); lia.
    + lia.
Qed.

Lemma binary_normalize_finite (m e : Z) (sz : bool) :
  Zdigits2 m + e + 1 <= emax ->
  finite (binary_normalize prec emax m e sz) = true.
Proof.
  destruct m as [|p|p]; cbn [binary_normalize Zdigits2]; intros H;
    [reflexivity | |]; now apply binary_round_finite.
Qed.

(** A coordinate in range is a zero or a number below [2^30] in
    magnitude. *)
Lemma in_range_cases (x : T) :
  in_range x = true ->
  (exists s, x = S754_zero s) \/
  (exists s m e, x = S754_finite s m e /\ Zpos (digits2_pos m) + e <= 30).
Proof.
  unfold in_range. rewrite !andb_true_iff. intros [[Hv Hlo] Hhi].
  destruct x as [s|s| |s m e].
  - left. now exists s.
  - destruct s; discriminate.
  - discriminate.
  - right. exists s, m, e. split; [reflexivity|].
    unfold valid, valid_binary, bounded, canonical_mantissa in Hv.
    apply andb_true_iff in Hv. destruct Hv as [Hc _].
    apply Z.eqb_eq in Hc.
    assert (Hd : Zpos (digits2_pos m) <= 64)
      by (unfold fexp, emin, prec, emax in Hc; lia).
    assert (He : e <= -34); [|lia].
    destruct s.
    + revert Hlo. unfold leb, SFleb, SFcompare.
      change minus_big with (S754_finite true 17179869184000000000 (-34)).
      cbv beta iota.
      destruct (Z.compare_spec (-34) e); try discriminate; intros _; lia.
    + revert Hhi. unfold leb, SFleb, SFcompare.
      change big with (S754_finite false 17179869184000000000 (-34)).
      cbv beta iota.
      destruct (Z.compare_spec e (-34)); try discriminate; intros _; lia.
Qed.

(** The difference of two coordinates in range does not overflow. *)
Lemma sub_in_range_finite (a b : T) :
  in_range a = true -> in_range b = true -> finite (sub a b) = true.
Proof.
  intros Ha Hb.
  destruct (in_range_cases a Ha) as [[sa ->]|[sa [ma [ea [-> Da]]]]];
    destruct (in_range_cases b Hb) as [[sb ->]|[sb [mb [eb [-> Db]]]]].
  - destruct sa, sb; reflexivity.
  - reflexivity.
  - reflexivity.
  - unfold sub, SFsub. apply binary_normalize_finite.
    destruct (shl_align_spec ma ea (Z.min ea eb)) as [Ea Va].
    destruct (shl_align_spec mb eb (Z.min ea eb)) as [Eb Vb].
    set (A := Zpos (fst (shl_align ma ea (Z.min ea eb)))) in *.
    set (B := Zpos (fst (shl_align mb eb (Z.min ea eb)))) in *.
    rewrite Ea in Va. rewrite Eb in Vb.
    replace (Z.min ea (Z.min ea eb)) with (Z.min ea eb) in Va by lia.
    replace (Z.min eb (Z.min ea eb)) with (Z.min ea eb) in Vb by lia.
    set (ez := Z.min ea eb) in *.
    assert (HA : A < 2 ^ (30 - ez)).
    { rewrite Va. apply (Zdigits2_scaled ma (ea - ez) ez 30); lia. }
    assert (HB : B < 2 ^ (30 - ez)).
    { rewrite Vb. apply (Zdigits2_scaled mb (eb - ez) ez 30); lia. }
    assert (Hez : ez <= 29).
    { pose proof (Pos2Z.is_pos (digits2_pos ma)). lia. }
    assert (HM : Z.abs (cond_Zopp sa A - cond_Zopp sb B) < 2 ^ (31 - ez)).
    { replace (31 - ez) with (Z.succ (30 - ez)) by lia.
      rewrite Z.pow_succ_r by lia.
      assert (0 < A) by (unfold A; lia). assert (0 < B) by (unfold B; lia).
      destruct sa, sb; cbn [cond_Zopp]; lia. }
    rewrite <- Zdigits2_abs.
    assert (Zdigits2 (Z.abs (cond_Zopp sa A - cond_Zopp sb B)) <= 31 - ez).
    { apply Zdigits2_le; lia. }
    unfold emax. lia.
Qed.

(** The difference of two finite values is a number, possibly an
    infinity. *)
Lemma sub_finite_number (a b : T) :
  finite a = true -> finite b = true -> isnan (sub a b) = false.
Proof.
  destruct a as [sa|sa| |sa ma ea], b as [sb|sb| |sb mb eb];
    try discriminate; intros _ _; try reflexivity.
  - destruct sa, sb; reflexivity.
  - unfold sub, SFsub.
    destruct (cond_Zopp sa (Zpos (fst (shl_align ma ea (Z.min ea eb))))
              - cond_Zopp sb (Zpos (fst (shl_align mb eb (Z.min ea eb)))))
      as [|p|p]; cbn [binary_normalize]; [reflexivity| |];
      unfold binary_round;
      destruct (shl_align p (Z.min ea eb) _) as [mz ez];
      apply binary_round_aux_number; lia.
Qed.

(** A product of two numbers is NaN only as infinity times zero. *)
Lemma mul_nan_inv (x y : T) :
  isnan x = false -> isnan y = false -> isnan (mul x y) = true ->
  (is_inf x = true /\ is_zero y = true) \/
  (is_zero x = true /\ is_inf y = true).
Proof.
  destruct x as [sx|sx| |sx mx ex], y as [sy|sy| |sy my ey];
    try discriminate; intros _ _; unfold mul, SFmul;
    try discriminate; try (right; split; reflexivity);
    try (left; split; reflexivity).
  intros H. exfalso.
  rewrite (proj1 (binary_round_aux_number (xorb sx sy) (Zpos (mx * my))
                    (ex + ey) loc_Exact ltac:(lia))) in H.
  discriminate.
Qed.

(** The product of two finite values is a number. *)
Lemma mul_finite_number (x y : T) :
  finite x = true -> finite y = true -> isnan (mul x y) = false.
Proof.
  destruct x as [sx|sx| |sx mx ex], y as [sy|sy| |sy my ey];
    try discriminate; intros _ _; try reflexivity.
  unfold mul, SFmul. apply binary_round_aux_number. lia.
Qed.

Lemma in_range_sentinels : in_range big = true /\ in_range minus_big = true.
Proof. split; reflexivity. Qed.

Lemma pts_in_range_coords (pts : list pt) :
  forallb pt_in_range pts = true ->
  (forall x, In x (map fst pts) -> in_range x = true) /\
  (forall y, In y (map snd pts) -> in_range y = true).
Proof.
  intros H. split; intros v Hv; apply in_map_iff in Hv;
    destruct Hv as [p [<- Hp]];
    pose proof (forallb_In _ _ _ H p Hp) as Hr;
    unfold pt_in_range in Hr; apply andb_true_iff in Hr; tauto.
Qed.

(** The four extremes of the fallback are in range when the points are. *)
Lemma extremes_in_range (pts : list pt) :
  forallb pt_in_range pts = true ->
  in_range (min_xs pts) = true /\ in_range (max_xs pts) = true /\
  in_range (min_ys pts) = true /\ in_range (max_ys pts) = true.
Proof.
  intros H. destruct (pts_in_range_coords pts H) as [Hx Hy].
  destruct in_range_sentinels as [Hb Hmb].
  pose proof (proj1 (fold_min_least (@fst T T) pts big)) as H1.
  pose proof (proj1 (fold_max_greatest (@fst T T) pts minus_big)) as H2.
  pose proof (proj1 (fold_min_least (@snd T T) pts big)) as H3.
  pose proof (proj1 (fold_max_greatest (@snd T T) pts minus_big)) as H4.
  fold (min_xs pts) in H1. fold (max_xs pts) in H2.
  fold (min_ys pts) in H3. fold (max_ys pts) in H4.
  repeat split.
  - destruct H1 as [<-|H1]; [exact Hb | exact (Hx _ H1)].
  - destruct H2 as [<-|H2]; [exact Hmb | exact (Hx _ H2)].
  - destruct H3 as [<-|H3]; [exact Hb | exact (Hy _ H3)].
  - destruct H4 as [<-|H4]; [exact Hmb | exact (Hy _ H4)].
Qed.

Lemma extremes_finite (pts : list pt) :
  forallb finite_pt pts = true ->
  finite (min_xs pts) = true /\ finite (max_xs pts) = true /\
  finite (min_ys pts) = true /\ finite (max_ys pts) = true.
Proof.
  intros H.
  assert (Hx : forall x, In x (map fst pts) -> finite x = true).
  { intros v Hv. apply in_map_iff in Hv. destruct Hv as [p [<- Hp]].
    pose proof (forallb_In _ _ _ H p Hp) as Hf. unfold finite_pt in Hf.
    apply andb_true_iff in Hf. tauto. }
  assert (Hy : forall y, In y (map snd pts) -> finite y = true).
  { intros v Hv. apply in_map_iff in Hv. destruct Hv as [p [<- Hp]].
    pose proof (forallb_In _ _ _ H p Hp) as Hf. unfold finite_pt in Hf.
    apply andb_true_iff in Hf. tauto. }
  pose proof (proj1 (fold_min_least (@fst T T) pts big)) as H1.
  pose proof (proj1 (fold_max_greatest (@fst T T) pts minus_big)) as H2.
  pose proof (proj1 (fold_min_least (@snd T T) pts big)) as H3.
  pose proof (proj1 (fold_max_greatest (@snd T T) pts minus_big)) as H4.
  fold (min_xs pts) in H1. fold (max_xs pts) in H2.
  fold (min_ys pts) in H3. fold (max_ys pts) in H4.
  repeat split.
  - destruct H1 as [<-|H1]; [reflexivity | exact (Hx _ H1)].
  - destruct H2 as [<-|H2]; [reflexivity | exact (Hx _ H2)].
  - destruct H3 as [<-|H3]; [reflexivity | exact (Hy _ H3)].
  - destruct H4 as [<-|H4]; [reflexivity | exact (Hy _ H4)].
Qed.

(** The fallback's product is NaN only when one extent of the bounding box
    has overflowed and the other is zero. *)
Lemma fallback_nan_inv (pts : list pt) :
  forallb finite_pt pts = true ->
  isnan (fallback pts) = true ->
  (is_inf (sub (max_ys pts) (min_ys pts)) = true /\
   is_zero (sub (max_xs pts) (min_xs pts)) = true) \/
  (is_zero (sub (max_ys pts) (min_ys pts)) = true /\
   is_inf (sub (max_xs pts) (min_xs pts)) = true).
Proof.
  intros H Hn. destruct (extremes_finite pts H) as [H1 [H2 [H3 H4]]].
  unfold fallback in Hn.
  apply mul_nan_inv; [now apply sub_finite_number .. | exact Hn].
Qed.

(** The fallback's product is a number when the points are in range. *)
Lemma fallback_number (pts : list pt) :
  forallb pt_in_range pts = true -> isnan (fallback pts) = false.
Proof.
  intros H. destruct (extremes_in_range pts H) as [H1 [H2 [H3 H4]]].
  unfold fallback. apply mul_finite_number; now apply sub_in_range_finite.
Qed.

Lemma in_range_valid_pts (pts : list pt) :
  forallb pt_in_range pts = true -> valid_pts pts = true.
Proof.
  unfold valid_pts. intros H. apply forallb_forall. intros p Hp.
  pose proof (forallb_In _ _ _ H p Hp) as Hr.
  unfold pt_in_range, in_range in Hr. unfold valid_pt.
  rewrite !andb_true_iff in *. tauto.
Qed.

Lemma first_pass_number (pts : list pt) (res : T) :
  first_pass pts = Some res -> isnan res = false.
Proof.
  intros H. destruct (try_edges_sound _ _ _ H) as [a [b [_ [Hacc ->]]]].
  apply accepted_true_iff in Hacc. exact (proj2 Hacc).
Qed.

(** * Horizontal and vertical edges *)

Lemma eval_nan (l : line) : eval l S754_nan = S754_nan.
Proof.
  destruct l as [m b]. unfold eval. cbn [fst snd].
  destruct m; reflexivity.
Qed.

(** The corner [l1 x l3] of a horizontal or vertical edge is undefined,
    wherever the extreme projection [max_x] lies. *)
Lemma degenerate_corner (m1 ax ay max_x : T) :
  finite ax = true -> finite ay = true ->
  is_zero m1 || is_inf m1 || isnan m1 = true ->
  intersect (make_line (ax, ay) m1)
            (make_line (max_x, eval (make_line (ax, ay) m1) max_x)
                       (div minus_one m1))
  = (S754_nan, S754_nan).
Proof.
  intros Hx Hy Hm.
  assert (E : fst (intersect (make_line (ax, ay) m1)
            (make_line (max_x, eval (make_line (ax, ay) m1) max_x)
                       (div minus_one m1))) = S754_nan).
  { unfold intersect, make_line, eval. cbn [fst snd].
    destruct m1 as [s|s| |s m e]; try discriminate Hm; clear Hm;
      destruct ax as [sx|sx| |sx mx ex]; try discriminate Hx; clear Hx;
      destruct ay as [sy|sy| |sy my ey]; try discriminate Hy; clear Hy;
      destruct max_x as [sm|sm| |sm mm em];
      try destruct s; try destruct sx; try destruct sy; try destruct sm;
      reflexivity. }
  unfold intersect in *. 
  destruct (make_line (ax, ay) m1) as [m b] eqn:E1.
  destruct (make_line _ (div minus_one m1)) as [m3 b3] eqn:E3.
  cbn [fst] in E. rewrite E. now rewrite eval_nan.
Qed.

Lemma add_nan_l (x : T) : add S754_nan x = S754_nan.
Proof. reflexivity. Qed.

Lemma fold_add_nan (A : Type) (f : A -> T) (l : list A) :
  fold_left (fun res x => add res (f x)) l S754_nan = S754_nan.
Proof.
  induction l as [|x l IH]; [reflexivity|].
  cbn [fold_left]. rewrite add_nan_l. exact IH.
Qed.

Lemma cross_nan_l (q : pt) : cross (S754_nan, S754_nan) q = S754_nan.
Proof. reflexivity. Qed.

(** An undefined first vertex makes the area undefined. *)
Lemma polygon_area_nan (rest : list pt) :
  polygon_area ((S754_nan, S754_nan) :: rest) = S754_nan.
Proof.
  rewrite polygon_area_shoelace. unfold shoelace_sum.
  destruct rest as [|q rest]; cbn [tl firstn app combine fold_left fst snd];
    rewrite cross_nan_l;
    replace (add zero S754_nan) with S754_nan by reflexivity;
    rewrite ?(fold_add_nan _ (fun pq => cross (fst pq) (snd pq)));
    reflexivity.
Qed.

(** A horizontal or vertical hull edge yields a NaN area, whatever the
    other points are. *)
Lemma axis_parallel_area_nan (pts : list pt) (a b : pt) :
  finite_pt a = true -> axis_parallel a b = true ->
  isnan (edge_area pts a b) = true.
Proof.
  intros Ha Hm. rewrite corners_cyclic.
  unfold finite_pt in Ha. apply andb_true_iff in Ha. destruct Ha as [Hx Hy].
  unfold axis_parallel, make_line_pts in Hm. cbn [make_line fst] in Hm.
  unfold build. cbn [l1 l2 l3 l4]. unfold make_line_pts, perp.
  cbn [make_line fst].
  set (m1 := div (sub (snd b) (snd a)) (sub (fst b) (fst a))) in *.
  pose proof (degenerate_corner m1 (fst a) (snd a)
                (max_proj pts (make_line a m1) (div minus_one m1)) Hx Hy Hm)
    as E.
  destruct a as [ax ay]. cbn [fst snd] in *.
  rewrite E. now rewrite polygon_area_nan.
Qed.

Lemma adjacent_hull_edges (a b : pt) (hull : list pt) :
  adjacent a b hull -> In (a, b) (hull_edges hull).
Proof.
  intros [pre [post ->]]. unfold hull_edges.
  induction pre as [|x pre IH]; [now left|].
  destruct pre as [|y pre']; cbn [app tl combine] in *; right; exact IH.
Qed.

(** When every hull edge is horizontal or vertical, or has a candidate
    that leaves a point uncovered, the pass accepts nothing. *)
Lemma rejected_pass (pts : list pt) :
  forallb finite_pt pts = true ->
  forallb (rejected pts) (hull_edges (lower_hull pts)) = true ->
  first_pass pts = None.
Proof.
  intros Hf He. apply try_edges_none. intros a b Hadj.
  pose proof (forallb_In _ _ _ He (a, b) (adjacent_hull_edges a b _ Hadj))
    as H.
  unfold rejected in H. cbn [fst snd] in H. apply orb_true_iff in H.
  apply accepted_false_iff. destruct H as [H|H].
  - right. apply axis_parallel_area_nan; [|exact H].
    assert (Ha : In a (lower_hull pts)).
    { destruct Hadj as [pre [post ->]]. apply in_or_app. right. now left. }
    exact (forallb_In _ _ _ Hf a (lower_hull_incl pts a Ha)).
  - left. apply good_false_iff. now apply negb_true_iff.
Qed.

Lemma finite_rotate180 (pts : list pt) :
  forallb finite_pt (rotate180 pts) = forallb finite_pt pts.
Proof.
  unfold rotate180. induction pts as [|p pts IH]; [reflexivity|].
  cbn [map forallb]. rewrite IH. f_equal.
  destruct p as [x y]. unfold finite_pt, neg_pt. cbn [fst snd].
  destruct x, y; reflexivity.
Qed.

(** When that holds of the hull edges of both passes the answer comes from
    the fallback. *)
Lemma rejected_solve (pts : list pt) :
  valid_pts pts = true -> forallb finite_pt pts = true ->
  forallb (rejected pts) (hull_edges (lower_hull pts)) = true ->
  forallb (rejected (reflect pts)) (hull_edges (lower_hull (reflect pts)))
  = true ->
  first_pass pts = None /\ first_pass (reflect pts) = None /\
  solve pts = [fallback pts].
Proof.
  intros Hv Hf H1 H2.
  assert (E1 := rejected_pass pts Hf H1).
  assert (Hf' : forallb finite_pt (reflect pts) = true).
  { rewrite (reflect_rotate180 pts Hv), finite_rotate180. exact Hf. }
  assert (E2 := rejected_pass (reflect pts) Hf' H2).
  split; [exact E1|]. split; [exact E2|].
  rewrite solve_unrolled, E1, E2, (reflect_twice pts Hv). reflexivity.
Qed.

(** C6 (amended).  A value printed by the search is a number: a candidate
    whose computed area is NaN is not accepted ([isnan]) and the search goes
    on with the next hull edge; the candidate of a horizontal or vertical
    hull edge always has a NaN area, so when every hull edge of both passes
    is horizontal or vertical or has a candidate that leaves a point
    uncovered, as for the samples of the axis-aligned rectangle (0,0),
    (4,0), (4,3), (0,3) with its corners or without them, the answer is
    produced by the fallback (12 there); [two_rows] is an input whose
    horizontal edge is verified and is stopped by [isnan] alone.  The
    program outputs NaN only from the fallback, and for finite input only
    when one extent of the bounding box has overflowed to infinity while the
    other is zero; it never does for points whose coordinates have magnitude
    at most 1e9. *)
Theorem solve_prints_a_number :
  (forall pts hull res, try_edges pts hull = Some res -> isnan res = false) /\
  (forall pts a b rest,
      isnan (edge_area pts a b) = true ->
      try_edges pts (a :: b :: rest) = try_edges pts (b :: rest)) /\
  (forall pts a b,
      finite_pt a = true -> axis_parallel a b = true ->
      isnan (edge_area pts a b) = true) /\
  (forall pts,
      valid_pts pts = true -> forallb finite_pt pts = true ->
      forallb (rejected pts) (hull_edges (lower_hull pts)) = true ->
      forallb (rejected (reflect pts))
              (hull_edges (lower_hull (reflect pts))) = true ->
      first_pass pts = None /\ first_pass (reflect pts) = None /\
      solve pts = [fallback pts]) /\
  (forall pts,
      valid_pts pts = true -> forallb finite_pt pts = true ->
      In S754_nan (solve pts) ->
      first_pass pts = None /\ first_pass (reflect pts) = None /\
      ((is_inf (sub (max_ys pts) (min_ys pts)) = true /\
        is_zero (sub (max_xs pts) (min_xs pts)) = true) \/
       (is_zero (sub (max_ys pts) (min_ys pts)) = true /\
        is_inf (sub (max_xs pts) (min_xs pts)) = true))) /\
  (forall pts,
      forallb pt_in_range pts = true ->
      forall v, In v (solve pts) -> isnan v = false) /\
  (covered two_rows (build two_rows (P 0 0) (P 7 0)) /\
   isnan (edge_area two_rows (P 0 0) (P 7 0)) = true /\
   solve two_rows = [of_Z 21]) /\
  (forallb (fun e => axis_parallel (fst e) (snd e))
           (hull_edges (lower_hull rect20)) = true /\
   forallb (fun e => axis_parallel (fst e) (snd e))
           (hull_edges (lower_hull (reflect rect20))) = true /\
   solve rect20 = [fallback rect20] /\ fallback rect20 = of_Z 12).
Proof.
  split; [|split; [|split; [|split; [|split; [|split; [|split]]]]]].
  - intros pts hull res H.
    destruct (try_edges_sound _ _ _ H) as [a [b [_ [Hacc ->]]]].
    apply accepted_true_iff in Hacc. exact (proj2 Hacc).
  - intros pts a b rest H. rewrite try_edges_step.
    replace (accepted pts a b) with false; [reflexivity|].
    symmetry. apply accepted_false_iff. now right.
  - exact axis_parallel_area_nan.
  - exact rejected_solve.
  - intros pts Hv Hf Hnan. rewrite solve_unrolled in Hnan.
    destruct (first_pass pts) as [r|] eqn:E1.
    { destruct Hnan as [->|[]]. pose proof (first_pass_number _ _ E1).
      discriminate. }
    destruct (first_pass (reflect pts)) as [r|] eqn:E2.
    { destruct Hnan as [->|[]]. pose proof (first_pass_number _ _ E2).
      discriminate. }
    destruct Hnan as [Hnan|[]]. rewrite (reflect_twice pts Hv) in Hnan.
    split; [reflexivity|]. split; [reflexivity|].
    apply (fallback_nan_inv pts Hf). now rewrite Hnan.
  - intros pts Hr v Hv. rewrite solve_unrolled in Hv.
    destruct (first_pass pts) as [r|] eqn:E1.
    { destruct Hv as [<-|[]]. exact (first_pass_number _ _ E1). }
    destruct (first_pass (reflect pts)) as [r|] eqn:E2.
    { destruct Hv as [<-|[]]. exact (first_pass_number _ _ E2). }
    destruct Hv as [<-|[]].
    rewrite (reflect_twice pts (in_range_valid_pts pts Hr)).
    exact (fallback_number pts Hr).
  - split; [apply good_true_iff; vm_compute; reflexivity|].
    split; vm_compute; reflexivity.
  - split; [vm_compute; reflexivity|]. split; [vm_compute; reflexivity|].
    split; vm_compute; reflexivity.
Qed.

Lemma solve_prints_a_number_witness :
  (forallb pt_in_range tilted = true /\ In (of_Z 25) (solve tilted) /\
   isnan (of_Z 25) = false) /\
  (map (fun e => axis_parallel (fst e) (snd e))
       (hull_edges (lower_hull rect16)) = [false; true; false; true] /\
   forallb (rejected rect16) (hull_edges (lower_hull rect16)) = true /\
   forallb (rejected (reflect rect16))
           (hull_edges (lower_hull (reflect rect16))) = true /\
   first_pass rect16 = None /\ first_pass (reflect rect16) = None /\
   solve rect16 = [fallback rect16] /\ fallback rect16 = of_Z 12).
Proof.
  assert (Hr : forallb pt_in_range tilted = true) by (vm_compute; reflexivity).
  assert (Hin : In (of_Z 25) (solve tilted)) by (vm_compute; left; reflexivity).
  split.
  - split; [exact Hr|]. split; [exact Hin|].
    exact (proj1 (proj2 (proj2 (proj2 (proj2 (proj2 solve_prints_a_number)))))
             tilted Hr (of_Z 25) Hin).
  - assert (Hv : valid_pts rect16 = true) by (vm_compute; reflexivity).
    assert (Hf : forallb finite_pt rect16 = true) by (vm_compute; reflexivity).
    assert (H1 : forallb (rejected rect16) (hull_edges (lower_hull rect16))
                 = true) by (vm_compute; reflexivity).
    assert (H2 : forallb (rejected (reflect rect16))
                   (hull_edges (lower_hull (reflect rect16))) = true)
      by (vm_compute; reflexivity).
    split; [vm_compute; reflexivity|]. split; [exact H1|].
    split; [exact H2|].
    destruct (proj1 (proj2 (proj2 (proj2 solve_prints_a_number)))
                rect16 Hv Hf H1 H2) as (E1 & E2 & E3).
    split; [exact E1|]. split; [exact E2|]. split; [exact E3|].
    vm_compute. reflexivity.
Defined.

(** The fifteen points of [thin] are [long double]s on the y-axis, between
    the least and the greatest finite value; neither pass accepts a
    candidate, the height of the bounding box overflows to infinity, its
    width is zero, and the program prints NaN. *)
Lemma nan_from_overflowing_extent :
  valid_pts thin = true /\
  sub (max_ys thin) (min_ys thin) = S754_infinity false /\
  sub (max_xs thin) (min_xs thin) = S754_zero false /\
  solve thin = [S754_nan].
Proof.
  split; [vm_compute; reflexivity|]. split; [vm_compute; reflexivity|].
  split; vm_compute; reflexivity.
Qed.

(** The sixteen points of [mid16] are boundary samples of the axis-aligned
    square (0,0), (4,0), (4,4), (0,4), on each of its sides; the first hull
    edge, from (0,2) to (2,0), is neither horizontal nor vertical, every
    point is on one of the four lines of its candidate, and the search
    prints that candidate's area, 8: the fallback, which would give 16, is
    not reached. *)
Lemma fallback_bypassed_on_midpoints :
  (forall p, In p mid16 ->
             on_rectangle (of_Z 0) (of_Z 4) (of_Z 0) (of_Z 4) p) /\
  on_every_side (of_Z 0) (of_Z 4) (of_Z 0) (of_Z 4) mid16 /\
  lower_hull mid16 = [P 0 2; P 2 0; P 4 2] /\
  axis_parallel (P 0 2) (P 2 0) = false /\
  covered mid16 (build mid16 (P 0 2) (P 2 0)) /\
  first_pass mid16 = Some (of_Z 8) /\
  solve mid16 = [of_Z 8] /\
  fallback mid16 = of_Z 16.
Proof.
  split; [all_on_rectangle|]. split.
  { split; [|split; [|split]].
    - exists (P 0 2). split; [do 3 right; left|]; reflexivity.
    - exists (P 4 2). split; [right; left|]; reflexivity.
    - exists (P 2 0). split; [left|]; reflexivity.
    - exists (P 2 4). split; [do 2 right; left|]; reflexivity. }
  split; [vm_compute; reflexivity|]. split; [vm_compute; reflexivity|].
  split; [apply good_true_iff; vm_compute; reflexivity|].
  split; [vm_compute; reflexivity|].
  split; vm_compute; reflexivity.
Qed.

(** C6 as stated fails twice over.  The program can print NaN: on [thin]
    the fallback multiplies an infinite extent by a zero one.  And the
    samples of an axis-aligned rectangle need not be routed to the fallback:
    on [mid16] the first pass accepts a tilted candidate. *)
Lemma nan_printed_and_fallback_bypassed :
  (valid_pts thin = true /\
   sub (max_ys thin) (min_ys thin) = S754_infinity false /\
   sub (max_xs thin) (min_xs thin) = S754_zero false /\
   solve thin = [S754_nan]) /\
  ((forall p, In p mid16 ->
              on_rectangle (of_Z 0) (of_Z 4) (of_Z 0) (of_Z 4) p) /\
   on_every_side (of_Z 0) (of_Z 4) (of_Z 0) (of_Z 4) mid16 /\
   lower_hull mid16 = [P 0 2; P 2 0; P 4 2] /\
   axis_parallel (P 0 2) (P 2 0) = false /\
   covered mid16 (build mid16 (P 0 2) (P 2 0)) /\
   first_pass mid16 = Some (of_Z 8) /\
   solve mid16 = [of_Z 8] /\
   fallback mid16 = of_Z 16).
Proof.
  split; [exact nan_from_overflowing_extent|].
  exact fallback_bypassed_on_midpoints.
Qed.


(** * The tolerance *)

Lemma existsb_works (s : sides) (p : pt) :
  works s p = existsb (fun l => near l p) [l1 s; l2 s; l3 s; l4 s].
Proof.
  rewrite works_eq. cbn [existsb]. rewrite orb_false_r, !orb_assoc.
  reflexivity.
Qed.

(** C9 (amended).  The tolerance of the point-on-line verification is one
    absolute constant, the same for every input: [eps], the [double] nearest
    to 1e-7 (7555786372591432 * 2^-76, within 2^-77 of 1e-7) held exactly
    in the [long double].  A point passes for a line exactly when
    [|eval(l, x) - y| < eps], and the verification is that test over all
    points and the four lines. *)
Theorem tolerance_is_absolute :
  eps = S754_finite false 15474250491067252736 (-87) /\
  Zpos 15474250491067252736 = 7555786372591432 * 2 ^ 11 /\
  Z.abs (2 * 7555786372591432 * 10 ^ 7 - 2 ^ 77) <= 10 ^ 7 /\
  (forall l p, near l p = ltb (abs (sub (eval l (fst p)) (snd p))) eps) /\
  (forall pts s,
      good pts s
      = forallb (fun p => existsb (fun l => near l p)
                            [l1 s; l2 s; l3 s; l4 s]) pts).
Proof.
  split; [reflexivity|]. split; [reflexivity|].
  split; [vm_compute; discriminate|]. split; [reflexivity|].
  intros pts s. rewrite good_forallb.
  induction pts as [|p pts IH]; [reflexivity|].
  cbn [forallb]. now rewrite IH, existsb_works.
Qed.

(** C9 as stated fails: the point (1, 1 + 2^-24) passes for the line
    [y = x]; the same configuration at twice the coordinate scale, the point
    (2, 2 + 2^-23), does not, although its distance is within [eps] scaled
    by the same factor. *)
Lemma tolerance_does_not_scale :
  near (of_Z 1, zero) (of_Z 1, add (of_Z 1) (pow2 (-24))) = true /\
  double_pt (of_Z 1, add (of_Z 1) (pow2 (-24)))
  = (of_Z 2, add (of_Z 2) (pow2 (-23))) /\
  near (double_line (of_Z 1, zero)) (of_Z 2, add (of_Z 2) (pow2 (-23)))
  = false /\
  ltb (abs (sub (eval (double_line (of_Z 1, zero)) (of_Z 2))
                (add (of_Z 2) (pow2 (-23)))))
      (mul eps two) = true.
Proof.
  split; [vm_compute; reflexivity|]. split; [vm_compute; reflexivity|].
  split; vm_compute; reflexivity.
Qed.

(** * The shape of the lower hull *)

Lemma subseq_refl (A : Type) (l : list A) : subseq l l.
Proof. induction l; [apply subseq_nil|now apply subseq_keep]. Qed.

Lemma subseq_trans (A : Type) (l1 l2 l3 : list A) :
  subseq l1 l2 -> subseq l2 l3 -> subseq l1 l3.
Proof.
  intros H12 H23. revert l1 H12.
  induction H23 as [|x l2 l3 H IH|x l2 l3 H IH]; intros l1 H12.
  - exact H12.
  - apply subseq_skip. now apply IH.
  - inversion H12 as [|? ? ? H'|? l1' ? H']; subst.
    + apply subseq_skip. now apply IH.
    + apply subseq_keep. now apply IH.
Qed.

Lemma subseq_app_r (A : Type) (l l' : list A) : subseq l (l ++ l').
Proof.
  induction l as [|x l IH]; cbn [app].
  - induction l'; [apply subseq_nil|now apply subseq_skip].
  - now apply subseq_keep.
Qed.

Lemma subseq_snoc (A : Type) (l l' : list A) (x : A) :
  subseq l l' -> subseq (l ++ [x]) (l' ++ [x]).
Proof.
  induction 1; cbn [app].
  - apply subseq_keep, subseq_nil.
  - now apply subseq_skip.
  - now apply subseq_keep.
Qed.

Lemma subseq_In (A : Type) (l l' : list A) (x : A) :
  subseq l l' -> In x l -> In x l'.
Proof.
  induction 1 as [|y l l' H IH|y l l' H IH]; cbn [In]; intuition.
Qed.

(** The loop pops from the back of the hull only. *)
Lemma pop_while_suffix (p : pt) (hull : list pt) :
  exists popped, hull = popped ++ pop_while hull p.
Proof.
  induction hull as [|b rest IH]; [now exists []|].
  destruct rest as [|a rest']; [now exists []|].
  cbn [pop_while].
  destruct (leb (cross (vsub b a) (vsub p b)) zero); [|now exists []].
  destruct IH as [popped IH]. exists (b :: popped). cbn [app]. now f_equal.
Qed.

(** The loop never empties the hull. *)
Lemma pop_while_nonempty (p : pt) (hull : list pt) :
  hull <> [] -> pop_while hull p <> [].
Proof.
  induction hull as [|b rest IH]; intros H; [contradiction|].
  destruct rest as [|a rest']; [exact H|].
  cbn [pop_while].
  destruct (leb (cross (vsub b a) (vsub p b)) zero); [|exact H].
  apply IH. discriminate.
Qed.

(** The first point pushed stays at the bottom of the hull. *)
Lemma pop_while_bottom (p q : pt) (stack : list pt) :
  exists stack', pop_while (stack ++ [q]) p = stack' ++ [q].
Proof.
  destruct (pop_while_suffix p (stack ++ [q])) as [popped H].
  assert (Hne : pop_while (stack ++ [q]) p <> [])
    by (apply pop_while_nonempty; now destruct stack).
  destruct (exists_last Hne) as (stack' & x & E).
  exists stack'. rewrite E in H |- *.
  rewrite app_assoc in H. apply app_inj_tail in H. now destruct H as [_ ->].
Qed.

Lemma fold_hull_step_bottom (locs stack : list pt) (q : pt) :
  exists stack', fold_left hull_step locs (stack ++ [q]) = stack' ++ [q].
Proof.
  revert stack. induction locs as [|p locs IH]; intros stack.
  - now exists stack.
  - cbn [fold_left]. unfold hull_step at 2.
    destruct (pop_while_bottom p q stack) as [stack' ->].
    exact (IH (p :: stack')).
Qed.

(** The last point of the array is the one pushed last. *)
Lemma fold_hull_step_top (locs hull : list pt) (p : pt) :
  hd_error (fold_left hull_step (locs ++ [p]) hull) = Some p.
Proof. rewrite fold_left_app. reflexivity. Qed.

Lemma fold_hull_step_length (locs hull : list pt) :
  (2 <= length hull)%nat ->
  (2 <= length (fold_left hull_step locs hull))%nat.
Proof.
  revert hull. induction locs as [|p locs IH]; intros hull H; [exact H|].
  cbn [fold_left]. apply IH. unfold hull_step. cbn [length].
  assert (Hne : pop_while hull p <> []).
  { apply pop_while_nonempty. destruct hull; [cbn in H; lia|discriminate]. }
  destruct (pop_while hull p); [contradiction|cbn [length]; lia].
Qed.

Lemma fold_hull_step_subseq (locs hull seen : list pt) :
  subseq (rev hull) seen ->
  subseq (rev (fold_left hull_step locs hull)) (seen ++ locs).
Proof.
  revert hull seen. induction locs as [|p locs IH]; intros hull seen H.
  - cbn [fold_left]. now rewrite app_nil_r.
  - cbn [fold_left].
    replace (seen ++ p :: locs) with ((seen ++ [p]) ++ locs)
      by (now rewrite <- app_assoc).
    apply IH. unfold hull_step. cbn [rev]. apply subseq_snoc.
    apply (subseq_trans _ _ (rev hull)); [|exact H].
    destruct (pop_while_suffix p hull) as [popped E].
    rewrite E at 2. rewrite rev_app_distr. apply subseq_app_r.
Qed.

Lemma scan_subseq (locs : list pt) : subseq (scan locs) locs.
Proof.
  unfold scan. apply (fold_hull_step_subseq locs [] []). constructor.
Qed.

Lemma sort_length (l : list pt) : length (sort l) = length l.
Proof. apply Permutation_length, sort_permutation. Qed.

Lemma lower_hull_subseq (locs : list pt) :
  subseq (lower_hull locs) (sort locs).
Proof.
  unfold lower_hull.
  destruct (length (sort locs) <? 2)%nat; [apply subseq_refl|].
  apply scan_subseq.
Qed.

(** X1.  The hull returned is the sorted array with some points left out;
    it begins with the first point of the sorted array and ends with its
    last point, and has at least two points when the input has. *)
Theorem lower_hull_shape (locs : list pt) :
  subseq (lower_hull locs) (sort locs) /\
  hd_error (lower_hull locs) = hd_error (sort locs) /\
  hd_error (rev (lower_hull locs)) = hd_error (rev (sort locs)) /\
  ((2 <= length locs)%nat -> (2 <= length (lower_hull locs))%nat).
Proof.
  unfold lower_hull. rewrite <- (sort_length locs).
  destruct (Nat.ltb_spec (length (sort locs)) 2) as [Hlt|Hge].
  - split; [apply subseq_refl|]. split; [reflexivity|].
    split; [reflexivity|]. intros H. lia.
  - split; [apply scan_subseq|].
    destruct (sort locs) as [|p [|q rest]] eqn:E;
      [cbn in Hge; lia|cbn in Hge; lia|].
    unfold scan. split; [|split].
    + change (fold_left hull_step (p :: q :: rest) [])
        with (fold_left hull_step (q :: rest) ([] ++ [p])).
      destruct (fold_hull_step_bottom (q :: rest) [] p) as [stack' ->].
      rewrite rev_app_distr. reflexivity.
    + rewrite rev_involutive.
      assert (Hne : p :: q :: rest <> []) by discriminate.
      destruct (exists_last Hne) as (l & x & ->).
      rewrite fold_hull_step_top, rev_app_distr. reflexivity.
    + intros _. rewrite length_rev. cbn [fold_left].
      apply fold_hull_step_length. unfold hull_step. cbn [pop_while length].
      lia.
Qed.

(** * The order on points *)

Section Order.

Ltac compare_cases :=
  repeat match goal with
  | |- context [Z.compare ?a ?b] => destruct (Z.compare_spec a b)
  | H : context [Z.compare ?a ?b] |- _ => destruct (Z.compare_spec a b)
  | |- context [Pos.compare_cont Eq ?a ?b] =>
      change (Pos.compare_cont Eq a b) with (Pos.compare a b);
      destruct (Pos.compare_spec a b)
  | H : context [Pos.compare_cont Eq ?a ?b] |- _ =>
      change (Pos.compare_cont Eq a b) with (Pos.compare a b) in H;
      destruct (Pos.compare_spec a b)
  end.

(** Whatever is below [z] is below a number [y], or [y] is below [z]. *)
Lemma ltb_between (x y z : T) :
  isnan y = false -> ltb x z = true -> ltb x y || ltb y z = true.
Proof.
  unfold ltb, SFltb, SFcompare, isnan.
  destruct x as [sx|sx| |sx mx ex], y as [sy|sy| |sy my ey],
    z as [sz|sz| |sz mz ez]; try discriminate;
    try destruct sx; try destruct sy; try destruct sz;
    try discriminate; try reflexivity;
    intros _ H1; compare_cases; subst; simpl in *;
    try discriminate; try reflexivity; try lia.
Qed.

End Order.

Lemma comparable_fst (p : pt) : comparable p = true -> isnan (fst p) = false.
Proof.
  unfold comparable. intros H. apply andb_true_iff in H.
  now apply negb_true_iff.
Qed.

Lemma comparable_snd (p : pt) : comparable p = true -> isnan (snd p) = false.
Proof.
  unfold comparable. intros H. apply andb_true_iff in H.
  now apply negb_true_iff.
Qed.

Lemma pt_ltb_irrefl (p : pt) : pt_ltb p p = false.
Proof. unfold pt_ltb. now rewrite !ltb_irrefl. Qed.

Lemma pt_ltb_trans (p q r : pt) :
  comparable p = true -> comparable q = true -> comparable r = true ->
  pt_ltb p q = true -> pt_ltb q r = true -> pt_ltb p r = true.
Proof.
  intros Hp Hq Hr. unfold pt_ltb.
  pose proof (ltb_between (fst p) (fst r) (fst q) (comparable_fst r Hr)) as A.
  pose proof (ltb_between (fst q) (fst p) (fst r) (comparable_fst p Hp)) as B.
  pose proof (ltb_between (fst r) (fst q) (fst p) (comparable_fst q Hq)) as C.
  pose proof (ltb_trans (fst p) (fst q) (fst r)) as D.
  pose proof (ltb_trans (snd p) (snd q) (snd r)) as E.
  destruct (ltb (fst p) (fst q)), (ltb (fst q) (fst r)),
    (ltb (fst p) (fst r)), (ltb (fst q) (fst p)), (ltb (fst r) (fst q)),
    (ltb (fst r) (fst p)), (ltb (snd p) (snd q)), (ltb (snd q) (snd r)),
    (ltb (snd p) (snd r)); cbn; intros H1 H2;
    try reflexivity; try discriminate;
    try discriminate (A eq_refl); try discriminate (B eq_refl);
    try discriminate (C eq_refl); try discriminate (D eq_refl eq_refl);
    try discriminate (E eq_refl eq_refl).
Qed.

Lemma in_order_trans (p q r : pt) :
  comparable p = true -> comparable q = true -> comparable r = true ->
  in_order p q -> in_order q r -> in_order p r.
Proof.
  intros Hp Hq Hr. unfold in_order, pt_ltb.
  pose proof (ltb_between (fst r) (fst q) (fst p) (comparable_fst q Hq)) as A.
  pose proof (ltb_between (fst p) (fst r) (fst q) (comparable_fst r Hr)) as B.
  pose proof (ltb_between (fst q) (fst p) (fst r) (comparable_fst p Hp)) as C.
  pose proof (ltb_between (snd r) (snd q) (snd p) (comparable_snd q Hq)) as D.
  destruct (ltb (fst p) (fst q)), (ltb (fst q) (fst r)),
    (ltb (fst p) (fst r)), (ltb (fst q) (fst p)), (ltb (fst r) (fst q)),
    (ltb (fst r) (fst p)), (ltb (snd q) (snd p)), (ltb (snd r) (snd q)),
    (ltb (snd r) (snd p)); cbn; intros H1 H2;
    try reflexivity; try discriminate;
    try discriminate (A eq_refl); try discriminate (B eq_refl);
    try discriminate (C eq_refl); try discriminate (D eq_refl).
Qed.

(** X2.  On points without a NaN coordinate the comparison [std::sort]
    uses is a strict weak ordering, as [std::sort] requires: it is
    irreflexive and transitive, and so is "not after".  With a NaN
    coordinate it is not: a point can be unordered with two points of which
    one is before the other. *)
Theorem pt_ltb_strict_weak_order :
  (forall p, pt_ltb p p = false) /\
  (forall p q r,
      comparable p = true -> comparable q = true -> comparable r = true ->
      pt_ltb p q = true -> pt_ltb q r = true -> pt_ltb p r = true) /\
  (forall p q r,
      comparable p = true -> comparable q = true -> comparable r = true ->
      pt_ltb q p = false -> pt_ltb r q = false -> pt_ltb r p = false) /\
  (exists p q r,
      comparable q = false /\
      pt_ltb q p = false /\ pt_ltb r q = false /\ pt_ltb r p = true).
Proof.
  split; [exact pt_ltb_irrefl|]. split; [exact pt_ltb_trans|].
  split; [exact in_order_trans|].
  exists (P 1 0), (S754_nan, zero), (P 0 0).
  repeat split; vm_compute; reflexivity.
Qed.

(** * Hulls of hulls *)

Lemma insert_strongly_sorted (p : pt) (l : list pt) :
  comparable p = true -> forallb comparable l = true ->
  StronglySorted in_order l -> StronglySorted in_order (insert p l).
Proof.
  intros Hp. induction l as [|q l IH]; intros Hl H; cbn [insert].
  - repeat constructor.
  - cbn [forallb] in Hl. apply andb_true_iff in Hl. destruct Hl as [Hq Hl].
    inversion H as [|? ? Hs Hall]; subst.
    destruct (pt_ltb q p) eqn:E.
    + constructor; [now apply IH|].
      apply (Permutation_Forall (x := p :: l)).
      * symmetry. apply insert_permutation.
      * constructor; [exact (pt_ltb_asym _ _ E)|exact Hall].
    + constructor; [exact H|]. constructor; [exact E|].
      apply Forall_forall. intros z Hz.
      apply (in_order_trans p q z Hp Hq);
        [exact (forallb_In _ _ _ Hl z Hz)|exact E|].
      exact (proj1 (Forall_forall _ _) Hall z Hz).
Qed.

Lemma comparable_insert (p : pt) (l : list pt) :
  forallb comparable (insert p l) = comparable p && forallb comparable l.
Proof.
  induction l as [|q l IH]; cbn [insert forallb]; [reflexivity|].
  destruct (pt_ltb q p); cbn [forallb]; [|reflexivity].
  rewrite IH. now destruct (comparable p), (comparable q).
Qed.

Lemma sort_strongly_sorted (l : list pt) :
  forallb comparable l = true ->
  forallb comparable (sort l) = true /\ StronglySorted in_order (sort l).
Proof.
  induction l as [|p l IH]; intros H; [split; [reflexivity|constructor]|].
  cbn [forallb] in H. apply andb_true_iff in H. destruct H as [Hp Hl].
  destruct (IH Hl) as [IH1 IH2].
  unfold sort in *. cbn [fold_right]. split.
  - now rewrite comparable_insert, Hp, IH1.
  - now apply insert_strongly_sorted.
Qed.

Lemma subseq_strongly_sorted (A : Type) (R : A -> A -> Prop) (l l' : list A) :
  subseq l l' -> StronglySorted R l' -> StronglySorted R l.
Proof.
  induction 1 as [|x l l' H IH|x l l' H IH]; intros Hs.
  - constructor.
  - inversion Hs; subst. now apply IH.
  - inversion Hs as [|? ? Hs' Hall]; subst. constructor; [now apply IH|].
    apply Forall_forall. intros y Hy.
    exact (proj1 (Forall_forall _ _) Hall y (subseq_In _ _ _ _ H Hy)).
Qed.

(** Sorting a sorted array changes nothing. *)
Lemma sort_fixed (l : list pt) : Sorted in_order l -> sort l = l.
Proof.
  induction 1 as [|p l Hs IH Hh]; [reflexivity|].
  unfold sort in *. cbn [fold_right]. rewrite IH.
  destruct Hh as [|q l' Hpq]; [reflexivity|].
  cbn [insert]. unfold in_order in Hpq. now rewrite Hpq.
Qed.

Lemma left_turns_app (xs ys : list pt) :
  left_turns (xs ++ ys) -> left_turns ys.
Proof.
  induction xs as [|x xs IH]; [auto|].
  cbn [app]. intros H. apply IH. exact (left_turns_tail _ _ H).
Qed.

(** On a hull without a right turn the loop pops nothing. *)
Lemma fold_hull_step_fixed (l stack : list pt) :
  left_turns (rev l ++ stack) ->
  fold_left hull_step l stack = rev l ++ stack.
Proof.
  revert stack. induction l as [|p l IH]; intros stack H; [reflexivity|].
  cbn [rev] in H |- *. rewrite <- app_assoc in H |- *. cbn [app] in H |- *.
  cbn [fold_left]. rewrite <- (IH (p :: stack) H). f_equal.
  unfold hull_step. f_equal.
  apply left_turns_app in H.
  destruct stack as [|b [|a rest]]; [reflexivity|reflexivity|].
  cbn [left_turns] in H. destruct H as [H _]. unfold turn in H.
  cbn [pop_while]. now rewrite H.
Qed.

(** X3.  On points without a NaN coordinate [lower_hull] returns a hull
    that is its own lower hull: calling it on its result changes nothing. *)
Theorem lower_hull_idempotent (locs : list pt) :
  forallb comparable locs = true ->
  lower_hull (lower_hull locs) = lower_hull locs.
Proof.
  intros Hc.
  destruct (sort_strongly_sorted locs Hc) as [_ Hs].
  pose proof (lower_hull_subseq locs) as Hsub.
  assert (Hfix : sort (lower_hull locs) = lower_hull locs).
  { apply sort_fixed, StronglySorted_Sorted.
    exact (subseq_strongly_sorted _ _ _ _ Hsub Hs). }
  unfold lower_hull at 1. rewrite Hfix.
  destruct (length (lower_hull locs) <? 2)%nat eqn:E; [reflexivity|].
  unfold lower_hull in *.
  destruct (length (sort locs) <? 2)%nat eqn:E2; [congruence|].
  unfold scan at 1. rewrite fold_hull_step_fixed.
  - rewrite app_nil_r. apply rev_involutive.
  - rewrite app_nil_r. unfold scan. rewrite rev_involutive.
    now apply fold_hull_step_left_turns.
Qed.

Lemma lower_hull_idempotent_witness :
  forallb comparable tilted = true /\
  lower_hull (lower_hull tilted) = lower_hull tilted.
Proof.
  split; [vm_compute; reflexivity|].
  apply (lower_hull_idempotent tilted). vm_compute. reflexivity.
Defined.

(** * Fewer than two points *)

Lemma sub_diag (x : T) : finite x = true -> sub x x = zero.
Proof.
  destruct x as [[]|[]| |s m e]; try discriminate; try reflexivity.
  intros _. unfold sub, SFsub. rewrite Z.sub_diag. reflexivity.
Qed.

Lemma in_range_finite (x : T) : in_range x = true -> finite x = true.
Proof.
  intros H.
  destruct (in_range_cases x H) as [[s ->]|[s [m [e [-> _]]]]]; reflexivity.
Qed.

Lemma min_big_in_range (x : T) : in_range x = true -> min big x = x.
Proof.
  intros H. apply in_range_bounds in H. destruct H as [_ Hle].
  pose proof (fold_min_least (fun v : T => v) [x] big) as L.
  cbn [fold_left map] in L.
  destruct (least_without_sentinel _ _ L) as [[E|[]] _].
  - exists x. split; [left; reflexivity|exact Hle].
  - symmetry. exact E.
Qed.

Lemma max_minus_big_in_range (x : T) :
  in_range x = true -> max minus_big x = x.
Proof.
  intros H. apply in_range_bounds in H. destruct H as [Hle _].
  pose proof (fold_max_greatest (fun v : T => v) [x] minus_big) as L.
  cbn [fold_left map] in L.
  destruct (greatest_without_sentinel _ _ L) as [[E|[]] _].
  - exists x. split; [left; reflexivity|exact Hle].
  - symmetry. exact E.
Qed.

(** The bounding box of one point within the sentinels has no extent. *)
Lemma fallback_one_point (p : pt) :
  pt_in_range p = true -> fallback [p] = zero.
Proof.
  unfold pt_in_range. intros H. apply andb_true_iff in H.
  destruct H as [Hx Hy].
  unfold fallback, min_xs, max_xs, min_ys, max_ys. cbn [fold_left].
  rewrite (min_big_in_range _ Hx), (max_minus_big_in_range _ Hx).
  rewrite (min_big_in_range _ Hy), (max_minus_big_in_range _ Hy).
  rewrite (sub_diag _ (in_range_finite _ Hx)).
  rewrite (sub_diag _ (in_range_finite _ Hy)).
  reflexivity.
Qed.

(** X4.  With fewer than two points there is no hull edge: neither pass
    tries a candidate and [solve] prints the value of the fallback, the
    product of the extents between the running extremes, which start from
    the sentinels 1e9 and -1e9: with no point at all that is 4e18, and with
    one point whose coordinates have magnitude at most 1e9 it is 0. *)
Theorem solve_few_points (pts : list pt) :
  (length pts < 2)%nat ->
  first_pass pts = None /\
  first_pass (reflect pts) = None /\
  solve pts = [fallback (reflect (reflect pts))] /\
  (pts = [] -> solve pts = [of_Z 4000000000000000000]) /\
  (forall p, pts = [p] -> pt_in_range p = true -> solve pts = [zero]).
Proof.
  intros H.
  assert (F : forall l, (length l < 2)%nat -> first_pass l = None).
  { intros l Hl. unfold first_pass, lower_hull.
    rewrite <- (sort_length l) in Hl.
    destruct (Nat.ltb_spec (length (sort l)) 2) as [_|Hge]; [|lia].
    destruct (sort l) as [|p [|q rest]]; [reflexivity|reflexivity|].
    cbn [length] in Hl. lia. }
  assert (H1 := F pts H).
  assert (H2 : first_pass (reflect pts) = None).
  { apply F. unfold reflect. now rewrite length_map. }
  split; [exact H1|]. split; [exact H2|].
  rewrite solve_unrolled, H1, H2. split; [reflexivity|]. split.
  - intros ->. vm_compute. reflexivity.
  - intros p -> Hp.
    assert (Hv : valid_pts [p] = true).
    { apply in_range_valid_pts. cbn [forallb]. now rewrite Hp. }
    rewrite (reflect_twice [p] Hv), (fallback_one_point p Hp). reflexivity.
Qed.

(** No point, the point (3, 4), and the point (2e9, 2e9), which is beyond
    the sentinels. *)
Lemma solve_few_points_witness :
  (length [P 3 4] < 2)%nat /\
  solve [P 3 4] = [fallback (reflect (reflect [P 3 4]))] /\
  solve [P 3 4] = [zero] /\
  solve [] = [of_Z 4000000000000000000] /\
  solve [P 2000000000 2000000000]
  = [fallback (reflect (reflect [P 2000000000 2000000000]))] /\
  fallback (reflect (reflect [P 2000000000 2000000000]))
  = of_Z 1000000000000000000.
Proof.
  split; [cbn [length]; lia|].
  destruct (solve_few_points [P 3 4]) as (_ & _ & H & _ & H');
    [cbn [length]; lia|].
  split; [exact H|]. split.
  - apply (H' (P 3 4) eq_refl). vm_compute. reflexivity.
  - split.
    + destruct (solve_few_points []) as (_ & _ & _ & H0 & _);
        [cbn [length]; lia|exact (H0 eq_refl)].
    + split; [|vm_compute; reflexivity].
      destruct (solve_few_points [P 2000000000 2000000000])
        as (_ & _ & Hfar & _); [cbn [length]; lia|exact Hfar].
Defined.

(** * Parallel lines *)

Lemma sub_diag_zero (m : T) : finite m = true -> is_zero (sub m m) = true.
Proof.
  destruct m as [[]|[]| |s m e]; try discriminate; try reflexivity.
  intros _. unfold sub, SFsub. rewrite Z.sub_diag. reflexivity.
Qed.

Lemma div_by_zero (x z : T) : is_zero z = true -> finite (div x z) = false.
Proof.
  destruct z as [sz|sz| |sz mz ez]; try discriminate. intros _.
  destruct x as [sx|sx| |sx mx ex]; reflexivity.
Qed.

(** X5.  [intersect] never returns a point for two lines of the same
    slope: the difference of the slopes is zero, the division yields an
    infinity or NaN, and so is the ordinate computed from it. *)
Theorem intersect_parallel (m b1 b2 : T) :
  finite m = true ->
  finite (fst (intersect (m, b1) (m, b2))) = false /\
  finite (snd (intersect (m, b1) (m, b2))) = false.
Proof.
  intros Hm. cbn [intersect fst snd].
  pose proof (div_by_zero (sub b2 b1) (sub m m) (sub_diag_zero m Hm)) as Hx.
  split; [exact Hx|].
  unfold eval. cbn [fst snd].
  destruct (div (sub b2 b1) (sub m m)) as [sx|sx| |sx mx ex];
    try discriminate.
  - destruct m as [sm|sm| |sm mm em]; try discriminate;
      destruct b1 as [s1|s1| |s1 m1 e1]; try reflexivity;
      destruct sm, sx; try destruct s1; reflexivity.
  - destruct m as [sm|sm| |sm mm em]; reflexivity.
Qed.

(** The sides [l1] and [l4] of a candidate, which have the same slope. *)
Lemma intersect_parallel_witness :
  finite (of_Z 3) = true /\
  finite (fst (intersect (of_Z 3, of_Z 0) (of_Z 3, of_Z 5))) = false /\
  finite (snd (intersect (of_Z 3, of_Z 0) (of_Z 3, of_Z 5))) = false.
Proof.
  split; [reflexivity|].
  apply (intersect_parallel (of_Z 3) (of_Z 0) (of_Z 5)). reflexivity.
Defined.

(** * The input turned round *)

(** X6.  An input for which the first pass finds nothing gets the same
    output as the input rotated by 180 degrees: the second pass of the one
    is the first pass of the other, and the bounding-box product is the
    same for both. *)
Theorem solve_rotated_input (pts : list pt) :
  valid_pts pts = true ->
  first_pass pts = None ->
  solve (rotate180 pts) = solve pts.
Proof.
  intros Hv H1.
  assert (Hv' : valid_pts (rotate180 pts) = true)
    by now rewrite valid_rotate180.
  rewrite !solve_unrolled, H1.
  rewrite (reflect_twice pts Hv), (reflect_twice _ Hv').
  rewrite (reflect_rotate180 pts Hv), (reflect_rotate180 _ Hv').
  rewrite rotate180_involutive, H1, fallback_rotate180.
  now destruct (first_pass (rotate180 pts)).
Qed.

Lemma solve_rotated_input_witness :
  valid_pts parabola = true /\ first_pass parabola = None /\
  solve (rotate180 parabola) = solve parabola.
Proof.
  assert (Hv : valid_pts parabola = true) by (vm_compute; reflexivity).
  assert (H1 : first_pass parabola = None) by (vm_compute; reflexivity).
  split; [exact Hv|]. split; [exact H1|].
  exact (solve_rotated_input parabola Hv H1).
Defined.


(** * The sorting program of the lambda post *)

Lemma comp_iff (a b : Z * Z) :
  comp a b = true <-> fst a > fst b \/ (fst a = fst b /\ snd a < snd b).
Proof.
  unfold comp. destruct (Z.eqb_spec (fst a) (fst b)) as [E|E].
  - rewrite Z.ltb_lt. lia.
  - rewrite Z.gtb_ltb, Z.ltb_lt. lia.
Qed.

Lemma comp_false_iff (a b : Z * Z) :
  comp b a = false <-> desc_then_asc a b.
Proof.
  unfold desc_then_asc. rewrite <- not_true_iff_false, comp_iff. lia.
Qed.

(** X7.  [comp] is a strict total order on the pairs: irreflexive,
    transitive, and two pairs neither of which comes first are the same
    pair; it puts the greater [first] first and, for equal [first], the
    smaller [second]. *)
Theorem comp_strict_total_order :
  (forall a, comp a a = false) /\
  (forall a b c, comp a b = true -> comp b c = true -> comp a c = true) /\
  (forall a b, comp a b = false -> comp b a = false -> a = b) /\
  (forall a b, comp a b = true <->
               fst a > fst b \/ (fst a = fst b /\ snd a < snd b)).
Proof.
  split; [|split; [|split]].
  - intros a. apply not_true_iff_false. rewrite comp_iff. lia.
  - intros a b c. rewrite !comp_iff. lia.
  - intros [a1 a2] [b1 b2]. rewrite <- !not_true_iff_false, !comp_iff.
    cbn [fst snd]. intros H1 H2. f_equal; lia.
  - exact comp_iff.
Qed.

Lemma insert_by_permutation (A : Type) (lt : A -> A -> bool) (x : A)
      (l : list A) :
  Permutation (insert_by lt x l) (x :: l).
Proof.
  induction l as [|y l IH]; cbn [insert_by]; [reflexivity|].
  destruct (lt y x); [|reflexivity].
  rewrite IH. apply perm_swap.
Qed.

Lemma sort_by_permutation (A : Type) (lt : A -> A -> bool) (l : list A) :
  Permutation (sort_by lt l) l.
Proof.
  induction l as [|x l IH]; [reflexivity|].
  unfold sort_by in *. cbn [fold_right].
  rewrite insert_by_permutation. now apply perm_skip.
Qed.

Lemma desc_then_asc_trans (a b c : Z * Z) :
  desc_then_asc a b -> desc_then_asc b c -> desc_then_asc a c.
Proof. unfold desc_then_asc. lia. Qed.

Lemma insert_comp_sorted (x : Z * Z) (l : list (Z * Z)) :
  StronglySorted desc_then_asc l ->
  StronglySorted desc_then_asc (insert_by comp x l).
Proof.
  induction l as [|y l IH]; intros H; cbn [insert_by].
  - repeat constructor.
  - inversion H as [|? ? Hs Hall]; subst.
    destruct (comp y x) eqn:E.
    + constructor; [now apply IH|].
      apply (Permutation_Forall (x := x :: l)).
      * symmetry. apply insert_by_permutation.
      * constructor; [|exact Hall].
        apply comp_iff in E. unfold desc_then_asc. lia.
    + apply comp_false_iff in E. constructor; [exact H|].
      constructor; [exact E|].
      apply Forall_forall. intros z Hz.
      apply (desc_then_asc_trans x y z E).
      exact (proj1 (Forall_forall _ _) Hall z Hz).
Qed.

Lemma sort_comp_sorted (l : list (Z * Z)) :
  StronglySorted desc_then_asc (sort_by comp l).
Proof.
  induction l as [|x l IH]; [constructor|].
  unfold sort_by in *. cbn [fold_right]. now apply insert_comp_sorted.
Qed.

Lemma desc_then_asc_antisym (a b : Z * Z) :
  desc_then_asc a b -> desc_then_asc b a -> a = b.
Proof.
  destruct a as [a1 a2], b as [b1 b2]. unfold desc_then_asc. cbn [fst snd].
  intros H1 H2. f_equal; lia.
Qed.

(** Two arrangements of the same pairs in the order asked for are the
    same. *)
Lemma sorted_unique (l1 l2 : list (Z * Z)) :
  Permutation l1 l2 ->
  StronglySorted desc_then_asc l1 -> StronglySorted desc_then_asc l2 ->
  l1 = l2.
Proof.
  revert l2. induction l1 as [|x l1 IH]; intros l2 Hp H1 H2.
  - apply Permutation_nil in Hp. now subst.
  - destruct l2 as [|y l2].
    + symmetry in Hp. apply Permutation_nil in Hp. discriminate.
    + inversion H1 as [|? ? Hs1 Ha1]; subst.
      inversion H2 as [|? ? Hs2 Ha2]; subst.
      assert (E : x = y).
      { assert (Hx : In x (y :: l2))
          by (apply (Permutation_in x Hp); now left).
        assert (Hy : In y (x :: l1))
          by (apply (Permutation_in y (Permutation_sym Hp)); now left).
        destruct Hx as [Hx|Hx]; [now subst|].
        destruct Hy as [Hy|Hy]; [now subst|].
        apply desc_then_asc_antisym.
        - exact (proj1 (Forall_forall _ _) Ha1 y Hy).
        - exact (proj1 (Forall_forall _ _) Ha2 x Hx). }
      subst y. f_equal. apply IH; [|exact Hs1|exact Hs2].
      exact (Permutation_cons_inv Hp).
Qed.

(** X8.  The sorting program writes the pairs it read, each as often as it
    was read, in descending order of [first] and, among equal [first], in
    ascending order of [second]; there is one such arrangement only, so the
    output does not depend on how [std::sort] goes about it. *)
Theorem main_sort_sorted_unique (arr : list (Z * Z)) :
  Permutation (main_sort arr) arr /\
  StronglySorted desc_then_asc (main_sort arr) /\
  (forall out,
      Permutation out arr -> StronglySorted desc_then_asc out ->
      out = main_sort arr).
Proof.
  split; [apply sort_by_permutation|]. split; [apply sort_comp_sorted|].
  intros out Hp Hs. apply sorted_unique; [|exact Hs|apply sort_comp_sorted].
  rewrite Hp. symmetry. apply sort_by_permutation.
Qed.

(** Five pairs, two of them with the greatest [first]. *)
Lemma main_sort_sorted_unique_witness :
  main_sort [(1, 2); (3, 1); (3, 0); (2, 5); (1, 1)]
  = [(3, 0); (3, 1); (2, 5); (1, 1); (1, 2)] /\
  StronglySorted desc_then_asc [(3, 0); (3, 1); (2, 5); (1, 1); (1, 2)].
Proof.
  split; [reflexivity|].
  exact (proj1 (proj2 (main_sort_sorted_unique
                         [(1, 2); (3, 1); (3, 0); (2, 5); (1, 1)]))).
Defined.

(** * The arithmetic lambdas *)

Lemma in_int_iff (z : Z) : in_int z = true <-> int_min <= z <= int_max.
Proof. unfold in_int. rewrite andb_true_iff, !Z.leb_le. tauto. Qed.

Lemma std_gcd_some (a b g : Z) :
  std_gcd a b = Some g -> g = Z.gcd a b /\ a <> int_min /\ b <> int_min.
Proof.
  unfold std_gcd.
  destruct (Z.eqb_spec a int_min); [discriminate|].
  destruct (Z.eqb_spec b int_min); [discriminate|].
  cbn [orb]. intros [= <-]. auto.
Qed.

Lemma quot_mul_gcd (a b : Z) :
  Z.gcd a b <> 0 -> Z.quot (a * b) (Z.gcd a b) = a * Z.quot b (Z.gcd a b).
Proof.
  intros Hg. destruct (Z.gcd_divide_r a b) as [k Hk].
  rewrite Hk at 1 3. rewrite Z.mul_assoc, !Z.quot_mul by exact Hg.
  reflexivity.
Qed.

Lemma abs_quot_lcm (a b : Z) :
  Z.gcd a b <> 0 -> Z.abs (Z.quot (a * b) (Z.gcd a b)) = Z.lcm a b.
Proof.
  intros Hg. rewrite quot_mul_gcd by exact Hg. unfold Z.lcm.
  f_equal. f_equal.
  destruct (Z.gcd_divide_r a b) as [k Hk].
  rewrite Hk at 1 3. now rewrite Z.quot_mul, Z.div_mul.
Qed.

(** X9.  Whenever [lcm] is defined, its result is the least common multiple
    of its arguments up to sign: a 32-bit value divisible by both whose
    absolute value is the least common multiple. *)
Theorem lcm_sound (a b r : Z) :
  lcm a b = Some r ->
  Z.abs r = Z.lcm a b /\ in_int r = true /\ (a | r) /\ (b | r).
Proof.
  unfold lcm. destruct (in_int (a * b)) eqn:Hab; [|discriminate].
  destruct (std_gcd a b) as [g|] eqn:Hg; [|discriminate].
  apply std_gcd_some in Hg. destruct Hg as (-> & Ha & Hb).
  destruct (Z.eqb_spec (Z.gcd a b) 0) as [E|E]; [discriminate|].
  intros [= <-].
  assert (Habs : Z.abs (Z.quot (a * b) (Z.gcd a b)) = Z.lcm a b)
    by now apply abs_quot_lcm.
  split; [exact Habs|]. split.
  - apply in_int_iff. apply in_int_iff in Hab.
    assert (Hpos : 0 < Z.gcd a b) by (pose proof (Z.gcd_nonneg a b); lia).
    assert (Hq : forall n, 0 <= n -> 0 <= Z.quot n (Z.gcd a b) <= n).
    { intros n Hn. split; [apply Z.quot_pos; lia|].
      apply Z.quot_le_upper_bound; [lia|]. nia. }
    destruct (Z_le_gt_dec 0 (a * b)) as [Hs|Hs].
    + specialize (Hq (a * b) Hs). unfold int_min, int_max in *. lia.
    + specialize (Hq (- (a * b)) ltac:(lia)).
      rewrite Z.quot_opp_l in Hq by lia.
    unfold int_min, int_max in *. lia.
  - split.
    + rewrite quot_mul_gcd by exact E. apply Z.divide_factor_l.
    + destruct (Z.gcd_divide_l a b) as [k Hk].
      rewrite Hk at 1. rewrite <- Z.mul_assoc, (Z.mul_comm (Z.gcd a b) b).
      rewrite Z.mul_assoc, Z.quot_mul by exact E.
      apply Z.divide_factor_r.
Qed.

(** The call of the post, [lcm(10, 10)], and one with a negative
    argument. *)
Lemma lcm_sound_witness :
  (lcm 10 10 = Some 10 /\
   Z.abs 10 = Z.lcm 10 10 /\ in_int 10 = true /\ (10 | 10) /\ (10 | 10)) /\
  (lcm (-4) 6 = Some (-12) /\
   Z.abs (-12) = Z.lcm (-4) 6 /\ in_int (-12) = true /\
   (-4 | -12) /\ (6 | -12)).
Proof.
  split.
  - split; [reflexivity|]. apply (lcm_sound 10 10 10). reflexivity.
  - split; [reflexivity|]. apply (lcm_sound (-4) 6 (-12)). reflexivity.
Defined.

(** X10.  On positive arguments [lcm] is defined exactly when the product
    [a * b] fits 32 bits, and is then the least common multiple; when the
    product does not fit, the multiplication overflows whatever the least
    common multiple is. *)
Theorem lcm_positive (a b : Z) :
  0 < a -> 0 < b ->
  (a * b <= int_max -> lcm a b = Some (Z.lcm a b)) /\
  (int_max < a * b -> lcm a b = None).
Proof.
  intros Ha Hb. unfold lcm, std_gcd. split; intros H.
  - assert (Hin : in_int (a * b) = true)
      by (apply in_int_iff; unfold int_min; nia).
    rewrite Hin.
    destruct (Z.eqb_spec a int_min); [unfold int_min in *; lia|].
    destruct (Z.eqb_spec b int_min); [unfold int_min in *; lia|].
    cbn [orb].
    assert (Hg : Z.gcd a b <> 0).
    { intros E. apply Z.gcd_eq_0_l in E. lia. }
    destruct (Z.eqb_spec (Z.gcd a b) 0); [contradiction|].
    f_equal. rewrite <- (abs_quot_lcm a b Hg).
    symmetry. apply Z.abs_eq. apply Z.quot_pos; [nia|].
    pose proof (Z.gcd_nonneg a b). lia.
  - destruct (in_int (a * b)) eqn:Hin; [|reflexivity].
    apply in_int_iff in Hin. lia.
Qed.

(** Two equal arguments just above the square root of [INT_MAX]. *)
Lemma lcm_positive_witness :
  (0 < 4 /\ 0 < 6 /\ 4 * 6 <= int_max /\ lcm 4 6 = Some (Z.lcm 4 6)) /\
  (0 < 46341 /\ int_max < 46341 * 46341 /\ lcm 46341 46341 = None /\
   Z.lcm 46341 46341 = 46341).
Proof.
  split.
  - split; [lia|]. split; [lia|]. split; [unfold int_max; lia|].
    apply (lcm_positive 4 6); [lia|lia|unfold int_max; lia].
  - split; [lia|]. split; [unfold int_max; lia|]. split; [|reflexivity].
    apply (lcm_positive 46341 46341); [lia|lia|unfold int_max; lia].
Defined.

(** * The recursive lambdas *)

Lemma rem_int_some (a b r : Z) :
  rem_int a b = Some r -> r = Z.rem a b.
Proof.
  unfold rem_int. destruct ((a =? int_min) && (b =? -1)); [discriminate|].
  now intros [= <-].
Qed.

Lemma rem_int_none (a b : Z) :
  rem_int a b = None <-> a = int_min /\ b = -1.
Proof.
  unfold rem_int. destruct (Z.eqb_spec a int_min), (Z.eqb_spec b (-1));
    cbn [andb]; split; try discriminate; try tauto.
Qed.

Lemma rem_smaller (a b : Z) : b <> 0 -> Z.abs (Z.rem a b) < Z.abs b.
Proof. intros Hb. now apply Z.rem_bound_abs. Qed.

(** More [fuel] than the second argument is large never runs out: the
    second argument shrinks in absolute value with every call. *)
Lemma gcd_loop_fuel (n m : nat) (a b : Z) :
  Z.abs b < Z.of_nat n -> Z.abs b < Z.of_nat m ->
  gcd_loop n a b = gcd_loop m a b.
Proof.
  revert m a b. induction n as [|n IH]; intros m a b Hn Hm; [lia|].
  destruct m as [|m]; [lia|]. cbn [gcd_loop].
  destruct (Z.eqb_spec b 0) as [E|E]; [reflexivity|].
  destruct (rem_int a b) as [r|] eqn:Hr; [|reflexivity].
  apply rem_int_some in Hr. subst r.
  pose proof (rem_smaller a b E). apply IH; lia.
Qed.

(** The body of the lambda, as an equation on [gcd]. *)
Lemma gcd_unfold (a b : Z) :
  gcd a b =
  if b =? 0 then Some a
  else match rem_int a b with
       | Some r => gcd b r
       | None => None
       end.
Proof.
  unfold gcd at 1. cbn [gcd_loop].
  destruct (Z.eqb_spec b 0) as [E|E]; [reflexivity|].
  destruct (rem_int a b) as [r|] eqn:Hr; [|reflexivity].
  apply rem_int_some in Hr. subst r.
  pose proof (rem_smaller a b E). unfold gcd. apply gcd_loop_fuel; lia.
Qed.

Lemma gcd_rem_step (a b : Z) : Z.gcd b (Z.rem a b) = Z.gcd a b.
Proof.
  destruct (Z.eq_dec b 0) as [->|Hb].
  - rewrite Z.rem_0_r_ext by reflexivity. now rewrite Z.gcd_comm.
  - rewrite (Z.gcd_comm a b).
    assert (E : Z.rem a b = a + (- Z.quot a b) * b).
    { pose proof (Z.quot_rem a b Hb). lia. }
    rewrite E. apply Z.gcd_add_mult_diag_r.
Qed.

(** Induction on the size of the second argument. *)
Lemma abs_induction (P : Z -> Prop) :
  (forall b, (forall r, Z.abs r < Z.abs b -> P r) -> P b) ->
  forall b, P b.
Proof.
  intros H b.
  assert (G : forall n b, Z.abs b < Z.of_nat n -> P b).
  { induction n as [|n IH]; intros c Hc; [lia|].
    apply H. intros r Hr. apply IH. lia. }
  apply (G (S (Z.abs_nat b))). lia.
Qed.

(** X11.  Whenever the recursive [gcd] is defined, its result is the
    greatest common divisor up to sign, and on arguments that are not
    negative it is defined and is the greatest common divisor itself. *)
Theorem gcd_is_gcd (a b : Z) :
  (forall g, gcd a b = Some g -> Z.abs g = Z.gcd a b) /\
  (0 <= a -> 0 <= b -> gcd a b = Some (Z.gcd a b)).
Proof.
  revert a. induction b as [b IH] using abs_induction. intros a.
  rewrite gcd_unfold. destruct (Z.eqb_spec b 0) as [E|E].
  - subst b. rewrite Z.gcd_0_r. split.
    + now intros g [= <-].
    + intros Ha _. now rewrite Z.abs_eq.
  - pose proof (rem_smaller a b E) as Hlt.
    destruct (IH (Z.rem a b) Hlt b) as [IH1 IH2]. split.
    + intros g. destruct (rem_int a b) as [r|] eqn:Hr; [|discriminate].
      apply rem_int_some in Hr. subst r. intros Hg.
      rewrite (IH1 g Hg). apply gcd_rem_step.
    + intros Ha Hb.
      destruct (rem_int a b) as [r|] eqn:Hr.
      * apply rem_int_some in Hr. subst r.
        rewrite IH2; [now rewrite gcd_rem_step|lia|].
        apply Z.rem_nonneg; lia.
      * apply rem_int_none in Hr. lia.
Qed.

(** The call of the post, and one with a negative argument. *)
Lemma gcd_is_gcd_witness :
  gcd 20 30 = Some (Z.gcd 20 30) /\ Z.abs (-10) = Z.gcd 20 (-30).
Proof.
  split.
  - apply (gcd_is_gcd 20 30); lia.
  - apply (gcd_is_gcd 20 (-30)). reflexivity.
Defined.

(** X12.  On 32-bit arguments the recursive [gcd] has undefined behaviour
    for the two pairs [(INT_MIN, -1)] and [(-1, INT_MIN)] only, where it
    comes to evaluate [INT_MIN % -1]; every other call returns a 32-bit
    value. *)
Theorem gcd_undefined_iff (a b : Z) :
  in_int a = true -> in_int b = true ->
  (gcd a b = None <->
   (a = int_min /\ b = -1) \/ (a = -1 /\ b = int_min)) /\
  (forall g, gcd a b = Some g -> in_int g = true).
Proof.
  revert a. induction b as [b IH] using abs_induction. intros a Ha Hb.
  rewrite gcd_unfold. destruct (Z.eqb_spec b 0) as [E|E].
  - subst b. split.
    + split; [discriminate|]. unfold int_min. lia.
    + now intros g [= <-].
  - pose proof (rem_smaller a b E) as Hlt.
    assert (Hr : in_int (Z.rem a b) = true).
    { apply in_int_iff. apply in_int_iff in Hb.
      unfold int_min, int_max in *. lia. }
    destruct (IH (Z.rem a b) Hlt b Hb Hr) as [IH1 IH2].
    destruct (rem_int a b) as [r|] eqn:Hrem.
    + pose proof Hrem as Hdef.
      apply rem_int_some in Hrem. subst r. split; [|exact IH2].
      rewrite IH1. apply in_int_iff in Ha.
      split.
      * intros [[Hb' Hr']|[Hb' Hr']].
        -- right. split; [|exact Hb'].
           assert (Hq := Z.quot_rem a b E).
           destruct (Z_le_gt_dec 0 a) as [Hs|Hs].
           ++ pose proof (Z.rem_nonneg a b E Hs). lia.
           ++ rewrite Hr' in Hq. subst b. unfold int_min, int_max in *. lia.
        -- subst b. unfold int_min in *. lia.
      * intros [[-> ->]|[-> ->]]; [|left; split; reflexivity].
        vm_compute in Hdef. discriminate.
    + apply rem_int_none in Hrem. split; [|discriminate].
      split; [intros _; now left|reflexivity].
Qed.

(** The call of the post, a negative result, and the two undefined
    calls. *)
Lemma gcd_undefined_iff_witness :
  gcd 20 30 = Some 10 /\ gcd 20 (-30) = Some (-10) /\
  gcd int_min (-1) = None /\ gcd (-1) int_min = None /\
  in_int (-10) = true.
Proof.
  split; [reflexivity|]. split; [reflexivity|].
  split; [reflexivity|]. split.
  - apply (gcd_undefined_iff (-1) int_min); [reflexivity|reflexivity|].
    right. split; reflexivity.
  - apply (gcd_undefined_iff 20 (-30)); [reflexivity|reflexivity|].
    reflexivity.
Defined.

(** X13.  The lambda run through [y_combinator] computes what the recursive
    [gcd] does: the reference to the combinator it receives is the function
    itself, so each call through it runs the same body. *)
Theorem y_combinator_gcd (fuel : nat) (a b : Z) :
  Z.abs b < Z.of_nat fuel ->
  y_combinator fuel gcd_lambda (a, b) = gcd a b.
Proof.
  revert a b. induction fuel as [|fuel IH]; intros a b H; [lia|].
  rewrite gcd_unfold. cbn [y_combinator]. unfold gcd_lambda at 1.
  cbn [fst snd].
  destruct (Z.eqb_spec b 0) as [E|E]; [reflexivity|].
  destruct (rem_int a b) as [r|] eqn:Hr; [|reflexivity].
  apply rem_int_some in Hr. subst r.
  pose proof (rem_smaller a b E). apply IH. lia.
Qed.

(** The call of the post: [(20, 30)] prints 10. *)
Lemma y_combinator_gcd_witness :
  Z.abs 30 < Z.of_nat 31 /\
  y_combinator 31 gcd_lambda (20, 30) = Some 10.
Proof.
  split; [lia|].
  rewrite (y_combinator_gcd 31 20 30); [reflexivity|lia].
Defined.

(** * Depth-first search *)

Lemma extends_refl (vis : list bool) : extends vis vis.
Proof. induction vis; constructor; auto. Qed.

Lemma extends_trans (v1 v2 v3 : list bool) :
  extends v1 v2 -> extends v2 v3 -> extends v1 v3.
Proof.
  intros H. revert v3. induction H as [|a b l l' Hab H IH]; intros v3 H3.
  - exact H3.
  - inversion H3 as [|? c ? l'' Hbc H3']; subst.
    constructor; [auto|]. now apply IH.
Qed.

Lemma extends_length (vis vis' : list bool) :
  extends vis vis' -> length vis' = length vis.
Proof. intros H. symmetry. exact (Forall2_length H). Qed.

Lemma extends_nth (vis vis' : list bool) (w : nat) :
  extends vis vis' -> nth w vis false = true -> nth w vis' false = true.
Proof.
  intros H. revert w. induction H as [|a b l l' Hab H IH]; intros w.
  - auto.
  - destruct w as [|w]; cbn [nth]; auto.
Qed.

Lemma extends_unvisited (vis vis' : list bool) :
  extends vis vis' -> (unvisited vis' <= unvisited vis)%nat.
Proof.
  unfold unvisited. induction 1 as [|a b l l' Hab H IH]; [reflexivity|].
  cbn [filter]. destruct a, b; cbn [negb length]; try lia.
Qed.

Lemma mark_S (u : nat) (b : bool) (vis : list bool) :
  mark (S u) (b :: vis) = b :: mark u vis.
Proof. reflexivity. Qed.

Lemma mark_extends (u : nat) (vis : list bool) :
  (u < length vis)%nat -> extends vis (mark u vis).
Proof.
  revert u. induction vis as [|b vis IH]; intros u Hu; cbn [length] in Hu.
  - lia.
  - destruct u as [|u].
    + constructor; [auto|apply extends_refl].
    + rewrite mark_S. constructor; [auto|]. apply IH. lia.
Qed.

Lemma mark_nth (u : nat) (vis : list bool) :
  (u < length vis)%nat -> nth u (mark u vis) false = true.
Proof.
  revert u. induction vis as [|b vis IH]; intros u Hu; cbn [length] in Hu.
  - lia.
  - destruct u as [|u]; [reflexivity|].
    rewrite mark_S. cbn [nth]. apply IH. lia.
Qed.

Lemma mark_nth_other (u w : nat) (vis : list bool) :
  (u < length vis)%nat -> w <> u ->
  nth w (mark u vis) false = nth w vis false.
Proof.
  revert u w. induction vis as [|b vis IH]; intros u w Hu Hw;
    cbn [length] in Hu.
  - lia.
  - destruct u as [|u].
    + destruct w as [|w]; [contradiction|reflexivity].
    + rewrite mark_S. destruct w as [|w]; [reflexivity|].
      cbn [nth]. apply IH; lia.
Qed.

Lemma mark_unvisited (u : nat) (vis : list bool) :
  (u < length vis)%nat -> nth u vis false = false ->
  S (unvisited (mark u vis)) = unvisited vis.
Proof.
  unfold unvisited.
  revert u. induction vis as [|b vis IH]; intros u Hu Hn; cbn [length] in Hu.
  - lia.
  - destruct u as [|u].
    + cbn [nth] in Hn. subst b. reflexivity.
    + rewrite mark_S. cbn [nth] in Hn. cbn [filter].
      destruct b; cbn [negb length]; rewrite <- (IH u); auto; lia.
Qed.

Lemma unvisited_le_length (vis : list bool) :
  (unvisited vis <= length vis)%nat.
Proof. apply filter_length_le. Qed.

Lemma reach_trans (adj : list (list nat)) (u v w : nat) :
  reach adj u v -> reach adj v w -> reach adj u w.
Proof.
  intros Huv Hvw. induction Hvw as [|x y Hvx IH Hxy]; [exact Huv|].
  exact (reach_edge adj u x y IH Hxy).
Qed.

(** The loop over the neighbours, when every call in it does what a call
    of [dfs] does. *)
Lemma for_each_explores (adj : list (list nat))
      (call : nat -> list bool -> option (list bool)) :
  (forall v vis vis', call v vis = Some vis' -> explores adj v vis vis') ->
  forall vs vis vis',
    for_each call vs vis = Some vis' ->
    extends vis vis' /\
    (forall v, In v vs -> nth v vis' false = true) /\
    (forall w, nth w vis false = false -> nth w vis' false = true ->
               (exists v, In v vs /\ reach adj v w) /\
               forall x, In x (nth w adj []) -> nth x vis' false = true).
Proof.
  intros Hcall. induction vs as [|v vs IH]; intros vis vis' H;
    cbn [for_each] in H.
  - injection H as <-. split; [apply extends_refl|].
    split; [intros v []|]. intros w H0 H1. congruence.
  - destruct (call v vis) as [vis1|] eqn:Hv; [|discriminate].
    destruct (Hcall _ _ _ Hv) as (E1 & M1 & N1).
    destruct (IH _ _ H) as (E2 & M2 & N2).
    split; [exact (extends_trans _ _ _ E1 E2)|]. split.
    + intros x [<-|Hx]; [exact (extends_nth _ _ _ E2 M1)|now apply M2].
    + intros w H0 H1. destruct (nth w vis1 false) eqn:Hw1.
      * destruct (N1 w H0 Hw1) as [R C]. split.
        -- exists v. split; [now left|exact R].
        -- intros x Hx. exact (extends_nth _ _ _ E2 (C x Hx)).
      * destruct (N2 w Hw1 H1) as [(x & Hx & R) C]. split; [|exact C].
        exists x. split; [now right|exact R].
Qed.

Lemma dfs_explores (fuel : nat) (adj : list (list nat)) :
  forall u vis vis', dfs fuel adj u vis = Some vis' ->
                     explores adj u vis vis'.
Proof.
  induction fuel as [|fuel IH]; intros u vis vis' H; [discriminate|].
  cbn [dfs] in H.
  destruct (Nat.ltb_spec u (length vis)) as [Hu|Hu]; [|discriminate].
  destruct (nth u vis false) eqn:Hvis.
  - injection H as <-. split; [apply extends_refl|].
    split; [exact Hvis|]. intros w H0 H1. congruence.
  - destruct (Nat.ltb_spec u (length adj)) as [Ha|Ha]; [|discriminate].
    destruct (for_each_explores adj _ IH _ _ _ H) as (E & M & N).
    pose proof (mark_extends u vis Hu) as E0.
    pose proof (mark_nth u vis Hu) as M0.
    split; [exact (extends_trans _ _ _ E0 E)|].
    split; [exact (extends_nth _ _ _ E M0)|].
    intros w H0 H1. destruct (Nat.eq_dec w u) as [->|Hne].
    + split; [apply reach_here|exact M].
    + rewrite <- (mark_nth_other u w vis Hu Hne) in H0.
      destruct (N w H0 H1) as [(x & Hx & R) C]. split; [|exact C].
      apply (reach_trans adj u x w); [|exact R].
      exact (reach_edge adj u u x (reach_here adj u) Hx).
Qed.

Lemma for_each_terminates (adj : list (list nat)) (fuel : nat)
      (call : nat -> list bool -> option (list bool)) :
  (forall v vis vis', call v vis = Some vis' -> extends vis vis') ->
  (forall v vis,
      (v < length adj)%nat -> length vis = length adj ->
      (unvisited vis < fuel)%nat -> exists vis', call v vis = Some vis') ->
  forall vs vis,
    (forall v, In v vs -> (v < length adj)%nat) ->
    length vis = length adj -> (unvisited vis < fuel)%nat ->
    exists vis', for_each call vs vis = Some vis'.
Proof.
  intros Hext Hcall. induction vs as [|v vs IH]; intros vis Hvs Hlen Hfuel;
    cbn [for_each].
  - now exists vis.
  - destruct (Hcall v vis (Hvs v (or_introl eq_refl)) Hlen Hfuel)
      as [vis1 Hv].
    rewrite Hv. pose proof (Hext _ _ _ Hv) as E.
    apply IH.
    + intros x Hx. apply Hvs. now right.
    + rewrite (extends_length _ _ E). exact Hlen.
    + pose proof (extends_unvisited _ _ E). lia.
Qed.

Lemma dfs_terminates (adj : list (list nat)) :
  graph_ok adj ->
  forall fuel u vis,
    (u < length adj)%nat -> length vis = length adj ->
    (unvisited vis < fuel)%nat ->
    exists vis', dfs fuel adj u vis = Some vis'.
Proof.
  intros Hg. induction fuel as [|fuel IH]; intros u vis Hu Hlen Hfuel;
    [lia|].
  cbn [dfs].
  destruct (Nat.ltb_spec u (length vis)) as [Hu'|Hu']; [|lia].
  destruct (nth u vis false) eqn:Hvis; [now exists vis|].
  destruct (Nat.ltb_spec u (length adj)) as [_|Ha]; [|lia].
  apply (for_each_terminates adj fuel).
  - intros v vis0 vis1 H. exact (proj1 (dfs_explores _ _ _ _ _ H)).
  - exact IH.
  - intros v Hv. exact (Hg u v Hv).
  - rewrite (extends_length _ _ (mark_extends u vis Hu')). exact Hlen.
  - pose proof (mark_unvisited u vis Hu' Hvis). lia.
Qed.

Lemma for_each_fuel (call call' : nat -> list bool -> option (list bool)) :
  (forall v vis vis', call v vis = Some vis' -> call' v vis = Some vis') ->
  forall vs vis vis',
    for_each call vs vis = Some vis' -> for_each call' vs vis = Some vis'.
Proof.
  intros Hc. induction vs as [|v vs IH]; intros vis vis' H;
    cbn [for_each] in *; [exact H|].
  destruct (call v vis) as [vis1|] eqn:Hv; [|discriminate].
  rewrite (Hc _ _ _ Hv). now apply IH.
Qed.

Lemma dfs_fuel (adj : list (list nat)) (n m : nat) :
  (n <= m)%nat ->
  forall u vis vis',
    dfs n adj u vis = Some vis' -> dfs m adj u vis = Some vis'.
Proof.
  revert m. induction n as [|n IH]; intros m Hnm u vis vis' H;
    [discriminate|].
  destruct m as [|m]; [lia|]. cbn [dfs] in *.
  destruct (u <? length vis)%nat; [|discriminate].
  destruct (nth u vis false); [exact H|].
  destruct (u <? length adj)%nat; [|discriminate].
  apply (for_each_fuel (dfs n adj)); [|exact H].
  apply IH. lia.
Qed.

Lemma nth_repeat_false (n w : nat) : nth w (repeat false n) false = false.
Proof.
  revert w. induction n as [|n IH]; intros [|w]; cbn [repeat nth]; auto.
Qed.

(** X14.  On a graph whose adjacency lists hold indices of the graph, started
    with nothing marked, [dfs(u)] returns, at a depth of recursion of at
    most the number of vertices, and leaves marked exactly the vertices
    that can be reached from [u]. *)
Theorem dfs_marks_reachable (adj : list (list nat)) (u : nat) :
  graph_ok adj -> (u < length adj)%nat ->
  exists vis',
    dfs (S (length adj)) adj u (repeat false (length adj)) = Some vis' /\
    length vis' = length adj /\
    forall w, nth w vis' false = true <-> reach adj u w.
Proof.
  intros Hg Hu.
  set (vis := repeat false (length adj)).
  assert (Hlen : length vis = length adj) by apply repeat_length.
  destruct (dfs_terminates adj Hg (S (length adj)) u vis Hu Hlen)
    as [vis' H].
  { pose proof (unvisited_le_length vis). lia. }
  exists vis'. split; [exact H|].
  destruct (dfs_explores _ _ _ _ _ H) as (E & M & N).
  split; [rewrite (extends_length _ _ E); exact Hlen|].
  intros w. split.
  - intros Hw. exact (proj1 (N w (nth_repeat_false _ w) Hw)).
  - induction 1 as [|x y Hux IH Hxy]; [exact M|].
    exact (proj2 (N x (nth_repeat_false _ x) IH) y Hxy).
Qed.

(** A graph of four vertices, the last of which cannot be reached from the
    first. *)
Lemma dfs_marks_reachable_witness :
  exists vis',
    dfs 5 [[1; 2]; [2]; [0]; [0]]%nat 0
        [false; false; false; false] = Some vis' /\
    length vis' = 4%nat /\
    forall w, nth w vis' false = true <->
              reach [[1; 2]; [2]; [0]; [0]]%nat 0 w.
Proof.
  apply (dfs_marks_reachable [[1; 2]; [2]; [0]; [0]]%nat 0).
  - intros u v.
    destruct u as [|[|[|[|[|u]]]]]; cbn [nth In length]; intros H;
      repeat (destruct H as [<-|H]; [lia|]); destruct H.
  - cbn [length]. lia.
Defined.

(** X15.  On such a graph a call [dfs(u)] returns from any marks, needing a
    depth of recursion of at most the number of unmarked vertices plus one,
    and returns the same whatever greater depth it is allowed; it keeps the
    length of [vis], unmarks nothing, marks [u], marks only vertices that
    can be reached from [u], and a second call changes nothing. *)
Theorem dfs_call (adj : list (list nat)) (fuel u : nat) (vis : list bool) :
  graph_ok adj -> length vis = length adj -> (u < length adj)%nat ->
  (unvisited vis < fuel)%nat ->
  exists vis',
    (forall m, (fuel <= m)%nat -> dfs m adj u vis = Some vis') /\
    length vis' = length vis /\
    (forall w, nth w vis false = true -> nth w vis' false = true) /\
    nth u vis' false = true /\
    (forall w, nth w vis' false = true ->
               nth w vis false = true \/ reach adj u w) /\
    dfs fuel adj u vis' = Some vis'.
Proof.
  intros Hg Hlen Hu Hfuel.
  destruct (dfs_terminates adj Hg fuel u vis Hu Hlen Hfuel) as [vis' H].
  exists vis'.
  split; [intros m Hm; exact (dfs_fuel adj fuel m Hm u vis vis' H)|].
  destruct (dfs_explores _ _ _ _ _ H) as (E & M & N).
  pose proof (extends_length _ _ E) as Hlen'.
  split; [exact Hlen'|].
  split; [intros w; apply extends_nth; exact E|].
  split; [exact M|]. split.
  - intros w Hw. destruct (nth w vis false) eqn:H0; [now left|].
    right. exact (proj1 (N w H0 Hw)).
  - destruct fuel as [|fuel]; [lia|]. cbn [dfs].
    destruct (Nat.ltb_spec u (length vis')) as [_|Hu']; [|lia].
    now rewrite M.
Qed.

(** The same graph, entered at its last vertex with the first marked. *)
Lemma dfs_call_witness :
  exists vis',
    (forall m, (4 <= m)%nat ->
               dfs m [[1; 2]; [2]; [0]; [0]]%nat 3
                   [true; false; false; false] = Some vis') /\
    length vis' = 4%nat /\
    (forall w, nth w [true; false; false; false] false = true ->
               nth w vis' false = true) /\
    nth 3 vis' false = true /\
    (forall w, nth w vis' false = true ->
               nth w [true; false; false; false] false = true \/
               reach [[1; 2]; [2]; [0]; [0]]%nat 3 w) /\
    dfs 4 [[1; 2]; [2]; [0]; [0]]%nat 3 vis' = Some vis'.
Proof.
  apply (dfs_call [[1; 2]; [2]; [0]; [0]]%nat 4 3
                  [true; false; false; false]).
  - intros u v.
    destruct u as [|[|[|[|[|u]]]]]; cbn [nth In length]; intros H;
      repeat (destruct H as [<-|H]; [lia|]); destruct H.
  - reflexivity.
  - cbn [length]. lia.
  - vm_compute. lia.
Defined.
